(** * mergething: IPython history synchronisation

    A shallow embedding of [src/mergething/ipython.py] and the properties
    of its three components: the source-file catalog
    ([get_safe_files_for_merge]), the history merger ([merge_histories])
    and the retention cleaner ([cleanup_old_files]); and of the function
    that runs them at the start of a session ([sync_and_get_hist_file]).

    Conventions of the embedding.
    - A Python [str] is a list of 8-bit characters; file names are taken
      to be ASCII.
    - The synchronised directory is flat: a [Path] inside it is
      represented by its final component, and the directory itself by
      the list of its entries in the order [os.scandir] yields them.
    - [socket.gethostname()] and [time.time()] are parameters of the
      functions that call them.  A [float] is a binary64 number, given
      by its value, a rational; arithmetic on floats rounds as IEEE 754
      does, and an [int] is compared with a [float] exactly.
    - A SQLite file is a set of tables, each a list of rows; a table may
      be absent, and a file may not be a database at all.  Columns have
      the types of the IPython schema; text columns are nullable.  A
      query on a table that is there returns its rows: faults of the
      storage in the middle of a read are outside the model.
    - An insert into the target fails on a primary key that is taken,
      with [sqlite3.IntegrityError]; other faults of the storage on a
      write are outside the model.
    - Console output is modelled where [merge_histories] prints, as a
      list of messages. *)

From Stdlib Require Import ZArith QArith Qround Qabs Ascii String.
From Equations Require Import Equations.
From stdpp Require Import base list strings gmap sorting.

Local Open Scope Z_scope.

(** ** Python strings *)

Abbreviation str := (list ascii).

(** A string literal of the source. *)
Definition lit (s : string) : str := list_ascii_of_string s.

Module PyStr.

(** [s.startswith(p)] *)
Fixpoint startswith (p s : str) : bool :=
  match p, s with
  | [], _ => true
  | a :: p', b :: s' => bool_decide (a = b) && startswith p' s'
  | _ :: _, [] => false
  end.

(** [s.endswith(p)] *)
Definition endswith (p s : str) : bool := startswith (reverse p) (reverse s).

(** [p in s], for a non-empty [p]. *)
Fixpoint contains (p s : str) : bool :=
  startswith p s ||
  match s with
  | [] => false
  | _ :: s' => contains p s'
  end.

(** [s.split(sep)] with an explicit one-character separator: empty
    fields are kept and the result is never empty. *)
Fixpoint split (sep : ascii) (s : str) : list str :=
  match s with
  | [] => [[]]
  | c :: s' =>
      if bool_decide (c = sep) then [] :: split sep s'
      else match split sep s' with
           | p :: ps => (c :: p) :: ps
           | [] => [[c]]
           end
  end.

(** [s.replace(old, new)] for a non-empty [old]: occurrences are found
    from the left and do not overlap. *)
Equations? replace (old new s : str) : str by wf (length s) lt :=
  replace old new [] := [];
  replace old new (c :: s') :=
    if startswith old (c :: s')
    then new ++ replace old new (drop (length old - 1) s')
    else c :: replace old new s'.
Proof. all: simpl; try rewrite length_drop; lia. Qed.

(** [s.rfind(c)], with [None] for Python's [-1]. *)
Fixpoint rfind (c : ascii) (s : str) : option nat :=
  match s with
  | [] => None
  | a :: s' =>
      match rfind c s' with
      | Some i => Some (S i)
      | None => if bool_decide (a = c) then Some 0%nat else None
      end
  end.

(** [parts[-1]] of a list that [split] returned. *)
Definition last_field (parts : list str) : str := List.last parts [].

(** The white space that [int] skips around the digits of an ASCII
    string: tab, line feed, vertical tab, form feed, carriage return
    and space. *)
Definition is_space (c : ascii) : bool :=
  let n := nat_of_ascii c in
  ((9 <=? n) && (n <=? 13) || (n =? 32))%nat.

Fixpoint lstrip (s : str) : str :=
  match s with
  | c :: s' => if is_space c then lstrip s' else s
  | [] => []
  end.

Definition strip (s : str) : str := reverse (lstrip (reverse (lstrip s))).

Definition digit_of (c : ascii) : option Z :=
  let n := nat_of_ascii c in
  if ((48 <=? n) && (n <=? 57))%nat then Some (Z.of_nat n - 48) else None.

Definition digits_val (s : str) : option Z :=
  foldl (λ acc c, a ← acc; d ← digit_of c; Some (10 * a + d)) (Some 0) s.

Definition unsigned_int (s : str) : option Z :=
  match s with
  | [] => None
  | _ => digits_val s
  end.

(** [int(s)]: [None] stands for [ValueError].  Surrounding white space
    and one sign are accepted.  The digit-grouping underscore of
    PEP 515 is left out: every string the program converts is a field
    that [split('_')] produced, so it holds no underscore. *)
Definition int (s : str) : option Z :=
  match strip s with
  | c :: r =>
      if bool_decide (c = "+"%char) then unsigned_int r
      else if bool_decide (c = "-"%char) then Z.opp <$> unsigned_int r
      else unsigned_int (c :: r)
  | [] => None
  end.

Definition digit_char (d : N) : ascii := ascii_of_N (48 + d).

(** The decimal digits of a natural number, most significant first. *)
Equations? digits_of (n : N) : str by wf (N.to_nat n) lt :=
  digits_of n :=
    if decide (n < 10)%N then [digit_char n]
    else digits_of (n / 10) ++ [digit_char (n mod 10)].
Proof.
  assert (n / 10 < n)%N by (apply N.div_lt; lia). lia.
Qed.

(** [str(z)], as an f-string formats an [int]. *)
Definition of_int (z : Z) : str :=
  if decide (z < 0) then "-"%char :: digits_of (Z.abs_N z)
  else digits_of (Z.to_N z).

Definition is_digit (c : ascii) : Prop := is_Some (digit_of c).

(** The characters of a formatted integer. *)
Definition numeric (s : str) : Prop :=
  Forall (λ c, is_digit c ∨ c = "-"%char) s ∧ s ≠ [].

End PyStr.

(** ** Python floats

    A [float] is an IEEE 754 binary64 number: 53 bits of precision,
    exponents from -1022 to 1023, gradual underflow.  A finite float is
    given by its value.  The sign of zero is not kept and there is no
    NaN: the program subtracts two finite numbers and compares the
    result with an [int], where neither can be observed. *)

Module Binary64.

Inductive float :=
| Finite (x : Q)
| Infinity (negative : bool).

(** The exponent [e] of a positive rational: [2^e <= a < 2^(e+1)]. *)
Definition floor_log2 (a : Q) : Z :=
  let e := (Z.log2 (Qnum a) - Z.log2 (Z.pos (Qden a)))%Z in
  if Qle_bool (2 ^ e) a then e else (e - 1)%Z.

(** The nearest integer, a tie going to the even one. *)
Definition round_half_even (y : Q) : Z :=
  let n := Qfloor y in
  match (y - inject_Z n ?= 1 # 2)%Q with
  | Lt => n
  | Gt => (n + 1)%Z
  | Eq => if Z.even n then n else (n + 1)%Z
  end.

(** The float nearest to a rational, in the default rounding mode. *)
Definition round (x : Q) : float :=
  if Qeq_bool x 0 then Finite 0
  else
    let negative := negb (Qle_bool 0 x) in
    let a := Qabs x in
    let quantum := (2 ^ (Z.max (floor_log2 a) (-1022) - 52)%Z)%Q in
    let r := Qred (inject_Z (round_half_even (a / quantum)) * quantum) in
    if Qle_bool (2 ^ 1024)%Q r then Infinity negative
    else Finite (if negative then Qred (- r) else r).

(** [float(n)] on an [int]; [None] stands for [OverflowError]. *)
Definition of_int (n : Z) : option Q :=
  match round (inject_Z n) with
  | Finite y => Some y
  | Infinity _ => None
  end.

(** [x - n] for a finite float [x] and an [int] [n]: the [int] is
    converted first. *)
Definition sub_int (x : Q) (n : Z) : option float :=
  y ← of_int n; Some (round (x - y)%Q).

(** [n < x] for an [int] [n] and a float [x]. *)
Definition int_lt (n : Z) (x : float) : bool :=
  match x with
  | Finite c => negb (Qle_bool c (inject_Z n))
  | Infinity negative => negb negative
  end.

End Binary64.

(** ** File names ([pathlib]) *)

Module PyPath.

(** [Path.stem]: the name without its last suffix.  A leading dot and
    a trailing dot do not start a suffix. *)
Definition stem (name : str) : str :=
  match PyStr.rfind "."%char name with
  | Some i => if ((0 <? i) && (i <? length name - 1))%nat then take i name else name
  | None => name
  end.

(** A glob pattern with a single wildcard, [before*after]. *)
Record pattern := Glob { before : str; after : str }.

Definition matches (p : pattern) (name : str) : bool :=
  PyStr.startswith (before p) name
  && PyStr.endswith (after p) (drop (length (before p)) name).

(** [sync_dir.glob(p)] *)
Definition glob (p : pattern) (dir : list str) : list str :=
  filter (λ name, matches p name) dir.

(** A host name can be spliced into a pattern when it holds no
    wildcard, no bracket and no path separator. *)
Definition glob_plain (hostname : str) : bool :=
  forallb (λ c, negb (bool_decide (c ∈ lit "*?[/"))) hostname.

End PyPath.

(** ** The file-name grammar *)

Module Grammar.

(** [f"ipython_history_{hostname}_{pid}_{timestamp}.db"] *)
Definition in_progress (hostname : str) (pid timestamp : Z) : str :=
  lit "ipython_history_" ++ hostname ++ lit "_" ++ PyStr.of_int pid
    ++ lit "_" ++ PyStr.of_int timestamp ++ lit ".db".

(** [f"ipython_history_{hostname}_{timestamp}_completed.db"] *)
Definition completed (hostname : str) (timestamp : Z) : str :=
  lit "ipython_history_" ++ hostname ++ lit "_" ++ PyStr.of_int timestamp
    ++ lit "_completed.db".

(** The fields of a name, as all three components cut it:
    [stem.replace('_completed', '').split('_')]. *)
Definition fields (name : str) : list str :=
  PyStr.split "_"%char (PyStr.replace (lit "_completed") [] (PyPath.stem name)).

(** [int(parts[-1])] *)
Definition file_timestamp (name : str) : option Z :=
  PyStr.int (PyStr.last_field (fields name)).

(** The pattern of the host's files, [f"ipython_history_{hostname}_*.db"]. *)
Definition host_pattern (hostname : str) : PyPath.pattern :=
  PyPath.Glob (lit "ipython_history_" ++ hostname ++ lit "_") (lit ".db").

(** A host name that the catalog classifies as the grammar intends: it
    holds no delimiter and does not begin with the completed marker. *)
Definition plain_host (hostname : str) : Prop :=
  "_"%char ∉ hostname ∧ PyStr.startswith (lit "completed") hostname = false.

End Grammar.

(** ** Sorting

    [list.sort] is stable.  [stable_sort before] keeps two elements in
    their original order unless the second one is strictly [before] the
    first. *)

Section Sort.
Context {A : Type} (before : A → A → bool).

Fixpoint sort_insert (x : A) (l : list A) : list A :=
  match l with
  | [] => [x]
  | y :: l' => if before y x then y :: sort_insert x l' else x :: y :: l'
  end.

Definition stable_sort (l : list A) : list A := foldr sort_insert [] l.
End Sort.

(** ** SourceFile catalog *)

Module Catalog.

Inductive exn := TypeError.

(** The key of [sort_key]; [None] is Python's [None], returned when
    the name has fewer than four fields and the function runs off its
    end. *)
Definition sort_key (current_hostname file_path : str) : option (bool * Z) :=
  let parts := Grammar.fields file_path in
  if (4 <=? length parts)%nat then
    match parts !! 2%nat with
    | Some hostname =>
        match PyStr.int (PyStr.last_field parts) with
        | Some timestamp =>
            Some (bool_decide (hostname = current_hostname), timestamp)
        | None => Some (false, 0)
        end
    | None => Some (false, 0)
    end
  else None.

(** Tuple comparison [a < b] on [(bool, int)]. *)
Definition key_lt (a b : bool * Z) : bool :=
  match a.1, b.1 with
  | false, true => true
  | true, false => false
  | _, _ => a.2 <? b.2
  end.

(** The loop body of step 2: is this regular file appended? *)
Definition regular_safe (current_hostname current_file file_path : str) : bool :=
  if bool_decide (file_path = current_file) then false
  else if PyStr.contains (lit "_completed") file_path then false
  else
    let parts := PyStr.split "_"%char (PyPath.stem file_path) in
    if (4 <=? length parts)%nat then
      match parts !! 2%nat with
      | Some hostname => bool_decide (hostname ≠ current_hostname)
      | None => false
      end
    else false.

Definition safe_files (current_hostname : str) (sync_dir : list str)
    (current_file : str) : list str :=
  PyPath.glob (PyPath.Glob (lit "ipython_history_") (lit "_completed.db")) sync_dir
  ++ filter (λ f, regular_safe current_hostname current_file f)
       (PyPath.glob (PyPath.Glob (lit "ipython_history_") (lit ".db")) sync_dir).

(** [l.sort(key=sort_key, reverse=True)].  The keys are computed
    first; with two or more elements every element takes part in a
    comparison, and comparing [None] raises [TypeError]. *)
Definition sort_reverse (current_hostname : str) (l : list str) : exn + list str :=
  let keyed := map (λ f, (sort_key current_hostname f, f)) l in
  if (2 <=? length l)%nat && existsb (λ kf, bool_decide (kf.1 = None)) keyed
  then inl TypeError
  else inr (stable_sort
              (λ f g, match sort_key current_hostname f, sort_key current_hostname g with
                      | Some a, Some b => key_lt b a
                      | _, _ => false
                      end) l).

Definition get_safe_files_for_merge (current_hostname : str)
    (sync_dir : list str) (current_file : str) : exn + list str :=
  sort_reverse current_hostname (safe_files current_hostname sync_dir current_file).

End Catalog.

(** ** Retention cleaner *)

Module Cleaner.

Inductive exn := OverflowError.

Section WithFilesystem.
(** Whether [unlink] is permitted on a file. *)
Variable can_unlink : str → bool.

(** [file_path.unlink()]: [None] stands for [OSError]. *)
Definition unlink (file_path : str) (dir : list str) : option (list str) :=
  if can_unlink file_path && bool_decide (file_path ∈ dir)
  then Some (filter (λ f, f ≠ file_path) dir)
  else None.

(** [file_timestamp < cutoff_time], an [int] against a [float]. *)
Definition older (file_timestamp : Z) (cutoff_time : Binary64.float) : bool :=
  Binary64.int_lt file_timestamp cutoff_time.

(** One iteration of the inner loop, on the directory as it is. *)
Definition visit (current_file : str) (cutoff_time : Binary64.float)
    (dir : list str) (file_path : str) : list str :=
  if bool_decide (file_path = current_file) then dir
  else match Grammar.file_timestamp file_path with
       | None => dir
       | Some file_timestamp =>
           if older file_timestamp cutoff_time
           then default dir (unlink file_path dir)
           else dir
       end.

(** The inner loop over one pattern; the listing is taken before the
    first deletion. *)
Definition sweep (p : PyPath.pattern) (current_file : str)
    (cutoff_time : Binary64.float) (dir : list str) : list str :=
  foldl (visit current_file cutoff_time) dir (PyPath.glob p dir).

(** The loop over the two patterns. *)
Definition sweeps (sync_dir : list str) (hostname current_file : str)
    (cutoff_time : Binary64.float) : list str :=
  let p1 := PyPath.Glob (lit "ipython_history_" ++ hostname ++ lit "_") (lit ".db") in
  let p2 := PyPath.Glob (lit "ipython_history_" ++ hostname ++ lit "_") (lit "_completed.db") in
  sweep p2 current_file cutoff_time (sweep p1 current_file cutoff_time sync_dir).

(** The directory after [cleanup_old_files]; [now] is the float that
    [time.time()] returns.  The subtraction comes before the loops, so
    nothing is deleted when it raises. *)
Definition cleanup_old_files (sync_dir : list str) (hostname current_file : str)
    (now : Q) (max_age_seconds : Z) : exn + list str :=
  match Binary64.sub_int now max_age_seconds with
  | None => inl OverflowError
  | Some cutoff_time => inr (sweeps sync_dir hostname current_file cutoff_time)
  end.

(** The files that a visit removes. *)
Definition doomed (current_file : str) (cutoff_time : Binary64.float) (f : str) : Prop :=
  f ≠ current_file ∧ can_unlink f = true
  ∧ ∃ t, Grammar.file_timestamp f = Some t ∧ older t cutoff_time = true.
End WithFilesystem.

(** The subtraction [time.time() - max_age_seconds] is exact: the
    float it yields is the difference of the two numbers. *)
Definition exact_cutoff (now : Q) (max_age_seconds : Z) : Prop :=
  ∃ c, Binary64.sub_int now max_age_seconds = Some (Binary64.Finite c)
       ∧ (c == now - inject_Z max_age_seconds)%Q.

End Cleaner.

(** ** History merger *)

Module Merger.

(** *** The persisted schema *)

Record session_row := SessionRow {
  session : Z;
  start_time : option str;
  end_time : option str;
  num_cmds : option Z;
  remark : option str }.

Record history_row := HistoryRow {
  h_session : Z;
  line : Z;
  source : option str;
  source_raw : option str }.

Record output_row := OutputRow {
  o_session : Z;
  o_line : Z;
  output : option str }.

(** A source store as [sqlite3] finds it: each table is there or not.
    A zero-length file is a database without tables. *)
Record database := Database {
  sessions : option (list session_row);
  history : option (list history_row);
  output_history : option (list output_row) }.

Inductive file_content :=
| NotADatabase
| Sqlite (db : database).

Record file := File { mtime : Z; content : file_content }.

(** The target store once the three [CREATE TABLE IF NOT EXISTS] have
    run: rows in insertion order. *)
Record target_db := Target {
  t_sessions : list session_row;
  t_history : list history_row;
  t_output_history : list output_row }.

Definition fresh : target_db := Target [] [] [].

Inductive sqlite_error := DatabaseError | OperationalError | IntegrityError.

Inductive message :=
| Warning (source_file : str) (e : sqlite_error)
| Merged (files : nat) (sessions_written : Z).

(** *** Session signatures *)

Abbreviation signature := (list (Z * str * str) * list (Z * str))%type.

(** [x or ""] on a nullable text value. *)
Definition or_empty (x : option str) : str := default [] x.

Definition session_signature (commands : list history_row)
    (outputs : list output_row) : signature :=
  (map (λ c, (line c, or_empty (source c), or_empty (source_raw c))) commands,
   map (λ o, (o_line o, or_empty (output o))) outputs).

(** *** Queries *)

(** [SELECT ... FROM sessions ORDER BY session] *)
Definition select_sessions (t : list session_row) : list session_row :=
  stable_sort (λ a b, session a <? session b) t.

(** [SELECT ... FROM history WHERE session = ? ORDER BY line] *)
Definition select_history (t : list history_row) (s : Z) : list history_row :=
  stable_sort (λ a b, line a <? line b) (filter (λ r, h_session r = s) t).

(** [SELECT ... FROM output_history WHERE session = ? ORDER BY line] *)
Definition select_output (t : list output_row) (s : Z) : list output_row :=
  stable_sort (λ a b, o_line a <? o_line b) (filter (λ r, o_session r = s) t).

(** *** The state of a run

    [accepted] is a ghost trace, absent from the source: one entry
    (source file, original session id, target session id) for each
    execution of [next_session_id += 1]. *)
Record state := State {
  target : target_db;
  seen_sessions : gset signature;
  next_session_id : Z;
  stdout : list message;
  accepted : list (str * Z * Z) }.

(** Statements that may raise [sqlite3.Error]; the state reached when
    the exception is raised is kept, as nothing rolls it back. *)
Definition M (A : Type) : Type := state → (sqlite_error + A) * state.

#[global] Instance M_ret : MRet M := λ A a st, (inr a, st).
#[global] Instance M_bind : MBind M := λ A B f m st,
  match m st with
  | (inr a, st') => f a st'
  | (inl e, st') => (inl e, st')
  end.

Definition raise {A} (e : sqlite_error) : M A := λ st, (inl e, st).
Definition get : M state := λ st, (inr st, st).
Definition modify (f : state → state) : M unit := λ st, (inr tt, f st).

Fixpoint for_each {A} (body : A → M unit) (l : list A) : M unit :=
  match l with
  | [] => mret tt
  | x :: l' => body x ;; for_each body l'
  end.

(** Reading a table that may be missing. *)
Definition table {A} (t : option (list A)) : M (list A) :=
  match t with
  | Some rows => mret rows
  | None => raise OperationalError
  end.

(** *** Inserts into the target, with its primary keys *)

Definition set_target (f : target_db → target_db) (st : state) : state :=
  State (f (target st)) (seen_sessions st) (next_session_id st) (stdout st) (accepted st).

Definition insert_session (r : session_row) : M unit := λ st,
  if bool_decide (session r ∈ map session (t_sessions (target st)))
  then (inl IntegrityError, st)
  else (inr tt, set_target (λ t, Target (t_sessions t ++ [r]) (t_history t) (t_output_history t)) st).

Definition insert_history (r : history_row) : M unit := λ st,
  if bool_decide ((h_session r, line r) ∈ map (λ x, (h_session x, line x)) (t_history (target st)))
  then (inl IntegrityError, st)
  else (inr tt, set_target (λ t, Target (t_sessions t) (t_history t ++ [r]) (t_output_history t)) st).

Definition insert_output (r : output_row) : M unit := λ st,
  if bool_decide ((o_session r, o_line r) ∈ map (λ x, (o_session x, o_line x)) (t_output_history (target st)))
  then (inl IntegrityError, st)
  else (inr tt, set_target (λ t, Target (t_sessions t) (t_history t) (t_output_history t ++ [r])) st).

(** *** The body of the loop over the sessions of one source *)

Definition merge_session (source_file : str) (db : database)
    (has_output_history : bool) (session_row : session_row) : M unit :=
  let orig_session := session session_row in
  h ← table (history db);
  let commands := select_history h orig_session in
  outputs ← (if has_output_history
             then o ← table (output_history db); mret (select_output o orig_session)
             else mret []);
  let session_signature := session_signature commands outputs in
  st ← get;
  if bool_decide (session_signature ∈ seen_sessions st) then mret tt
  else
    modify (λ st, State (target st) ({[ session_signature ]} ∪ seen_sessions st)
                    (next_session_id st) (stdout st) (accepted st));;
    let id := next_session_id st in
    insert_session (SessionRow id (start_time session_row) (end_time session_row)
                      (num_cmds session_row) (remark session_row));;
    for_each (λ c, insert_history (HistoryRow id (line c) (source c) (source_raw c)))
      commands;;
    for_each (λ o, insert_output (OutputRow id (o_line o) (output o))) outputs;;
    modify (λ st, State (target st) (seen_sessions st) (next_session_id st + 1)
                    (stdout st) (accepted st ++ [(source_file, orig_session, id)])).

(** The body of the [try]: everything between [connect] and [close]. *)
Definition read_source (source_file : str) (c : file_content) : M unit :=
  match c with
  | NotADatabase => raise DatabaseError
  | Sqlite db =>
      let has_output_history := bool_decide (is_Some (output_history db)) in
      s ← table (sessions db);
      for_each (merge_session source_file db has_output_history) (select_sessions s)
  end.

Section WithDisk.
(** The files on disk, by name. *)
Variable disk : str → option file.
Variable verbose : bool.

(** [sqlite3.connect] creates an empty database where no file is. *)
Definition connect (source_file : str) : file_content :=
  match disk source_file with
  | Some f => content f
  | None => Sqlite (Database None None None)
  end.

Definition print (m : message) (st : state) : state :=
  if verbose
  then State (target st) (seen_sessions st) (next_session_id st)
         (stdout st ++ [m]) (accepted st)
  else st.

(** One iteration of the loop over the sources, [try] and [except]. *)
Definition process_source (st : state) (source_file : str) : state :=
  match read_source source_file (connect source_file) st with
  | (inr _, st') => st'
  | (inl e, st') => print (Warning source_file e) st'
  end.

(** The sort timestamp of a source: from its name, else its mtime;
    [None] when [stat] raises [OSError] too. *)
Definition source_timestamp (source_file : str) : option Z :=
  match Grammar.file_timestamp source_file with
  | Some timestamp => Some timestamp
  | None => mtime <$> disk source_file
  end.

Definition files_with_times (source_files : list str) : list (Z * str) :=
  stable_sort (λ a b, a.1 <? b.1)
    (omap (λ f, t ← source_timestamp f; Some (t, f)) source_files).

Definition initial (target_file : target_db) : state :=
  State target_file ∅ 1 [] [].

(** The state when [merge_histories] returns. *)
Definition merge_histories (source_files : list str) (target_file : target_db) : state :=
  let fwt := files_with_times source_files in
  let st := foldl process_source (initial target_file) (fwt.*2) in
  print (Merged (length fwt) (next_session_id st - 1)) st.
End WithDisk.

(** *** What a run reads and writes

    The notions below are not in the source; the properties of
    [merge_histories] are stated with them. *)

(** A session as the loop body sees it: its row in [sessions], its
    commands and its outputs. *)
Definition item : Type := session_row * list history_row * list output_row.

Definition item_signature (it : item) : signature :=
  session_signature it.1.2 it.2.

(** The sessions that the queries on a source return, in the order of
    the loop; [None] when one of the statements raises. *)
Definition read_store (c : file_content) : option (list item) :=
  match c with
  | NotADatabase => None
  | Sqlite db =>
      s ← sessions db;
      match select_sessions s with
      | [] => Some []
      | rows =>
          h ← history db;
          Some (map (λ r, (r, select_history h (session r),
                           match output_history db with
                           | Some o => select_output o (session r)
                           | None => []
                           end)) rows)
      end
  end.

(** The exception of a source that cannot be read. *)
Definition read_error (c : file_content) : sqlite_error :=
  match c with
  | NotADatabase => DatabaseError
  | Sqlite _ => OperationalError
  end.

(** The primary keys of the schema, on a source store. *)
Definition keys_unique (c : file_content) : Prop :=
  match c with
  | NotADatabase => True
  | Sqlite db =>
      NoDup (map (λ r, (h_session r, line r)) (default [] (history db)))
      ∧ NoDup (map (λ r, (o_session r, o_line r)) (default [] (output_history db)))
  end.

#[global] Instance keys_unique_dec c : Decision (keys_unique c).
Proof. destruct c; apply _. Defined.

(** The rows of a session under a target id. *)
Definition renumber_session (id : Z) (r : session_row) : session_row :=
  SessionRow id (start_time r) (end_time r) (num_cmds r) (remark r).
Definition renumber_history (id : Z) (c : history_row) : history_row :=
  HistoryRow id (line c) (source c) (source_raw c).
Definition renumber_output (id : Z) (o : output_row) : output_row :=
  OutputRow id (o_line o) (output o).

(** The effect of the loop body on a session that is not a duplicate,
    when every insert succeeds. *)
Definition write (st : state) (x : str * item) : state :=
  let id := next_session_id st in
  State (Target (t_sessions (target st) ++ [renumber_session id x.2.1.1])
                (t_history (target st) ++ map (renumber_history id) x.2.1.2)
                (t_output_history (target st) ++ map (renumber_output id) x.2.2))
        ({[ item_signature x.2 ]} ∪ seen_sessions st)
        (id + 1) (stdout st)
        (accepted st ++ [(x.1, session x.2.1.1, id)]).

Definition accept (st : state) (x : str * item) : state :=
  if bool_decide (item_signature x.2 ∈ seen_sessions st) then st else write st x.

(** The first copy of every signature not yet seen, in order. *)
Fixpoint first_copies (seen : gset signature) (l : list (str * item)) : list (str * item) :=
  match l with
  | [] => []
  | x :: l' =>
      if bool_decide (item_signature x.2 ∈ seen) then first_copies seen l'
      else x :: first_copies ({[ item_signature x.2 ]} ∪ seen) l'
  end.

(** Consecutive numbers from [n] on. *)
Fixpoint numbered {A} (n : Z) (l : list A) : list (Z * A) :=
  match l with
  | [] => []
  | x :: l' => (n, x) :: numbered (n + 1) l'
  end.

(** What a numbered session puts into the three tables and the trace. *)
Definition session_written (p : Z * (str * item)) : session_row :=
  renumber_session p.1 p.2.2.1.1.
Definition history_written (p : Z * (str * item)) : list history_row :=
  map (renumber_history p.1) p.2.2.1.2.
Definition output_written (p : Z * (str * item)) : list output_row :=
  map (renumber_output p.1) p.2.2.2.
Definition trace_entry (p : Z * (str * item)) : str * Z * Z :=
  (p.2.1, session p.2.2.1.1, p.1).

(** The commands and the outputs of a session come in line order. *)
Definition sorted_item (it : item) : Prop :=
  StronglySorted (λ a b, line a ≤ line b) it.1.2
  ∧ StronglySorted (λ a b, o_line a ≤ o_line b) it.2.

(** The signature of a session of the target, recomputed from its rows. *)
Definition target_signature (t : target_db) (id : Z) : signature :=
  session_signature (select_history (t_history t) id)
                    (select_output (t_output_history t) id).

(** The state with more lines on the console, when [verbose]. *)
Definition noted (verbose : bool) (ms : list message) (st : state) : state :=
  if verbose
  then State (target st) (seen_sessions st) (next_session_id st)
         (stdout st ++ ms) (accepted st)
  else st.

(** Every row of the target has a session id below the counter. *)
Definition bounded (st : state) : Prop :=
  Forall (λ r, session r < next_session_id st) (t_sessions (target st))
  ∧ Forall (λ r, h_session r < next_session_id st) (t_history (target st))
  ∧ Forall (λ r, o_session r < next_session_id st) (t_output_history (target st)).

Section Reading.
Variable disk : str → option file.

(** A source that is read without an exception. *)
Definition readable (source_file : str) : Prop :=
  is_Some (read_store (connect disk source_file)).

(** The order in which two sources are processed. *)
Definition no_later (f g : str) : Prop :=
  ∀ tf tg, source_timestamp disk f = Some tf → source_timestamp disk g = Some tg → tf ≤ tg.

#[global] Instance readable_dec source_file : Decision (readable source_file).
Proof. unfold readable. apply _. Defined.

(** The sessions that a list of files yields, file after file, each
    with the file it comes from; a source that cannot be read has none. *)
Definition items_of (files : list str) : list (str * item) :=
  flat_map (λ f, map (pair f) (default [] (read_store (connect disk f)))) files.

(** The sessions of the sources in processing order. *)
Definition sessions_read (source_files : list str) : list (str * item) :=
  items_of ((files_with_times disk source_files).*2).

(** The warnings of a list of files, and of a run, in order. *)
Definition warnings_of (files : list str) : list message :=
  map (λ f, Warning f (read_error (connect disk f)))
    (filter (λ f, ¬ readable f) files).

Definition warnings (source_files : list str) : list message :=
  warnings_of ((files_with_times disk source_files).*2).
End Reading.

End Merger.

(** ** A small synchronised directory

    Host A wrote one session, host B holds a copy of it under another
    id and with other metadata, and a session of its own; a third file
    has length zero and a fourth is not a database. *)

Module Example.
Import Merger.

Definition file_a : str := lit "ipython_history_hostA_1_100.db".
Definition file_b : str := lit "ipython_history_hostB_2_200.db".
Definition file_c : str := lit "ipython_history_hostC_3_150.db".
Definition file_d : str := lit "notes.db".

Definition store_a : database :=
  Database
    (Some [SessionRow 1 (Some (lit "2024-01-01 10:00")) (Some (lit "2024-01-01 11:00"))
             (Some 2) None])
    (Some [HistoryRow 1 2 (Some (lit "x")) (Some (lit "x"));
           HistoryRow 1 1 (Some (lit "x = 1")) (Some (lit "x = 1"))])
    (Some [OutputRow 1 2 (Some (lit "1"))]).

Definition store_b : database :=
  Database
    (Some [SessionRow 6 (Some (lit "2024-02-02 09:00")) None (Some 1) (Some (lit "b"));
           SessionRow 5 (Some (lit "2024-03-03 10:00")) None (Some 2) (Some (lit "copy"))])
    (Some [HistoryRow 5 1 (Some (lit "x = 1")) (Some (lit "x = 1"));
           HistoryRow 5 2 (Some (lit "x")) (Some (lit "x"));
           HistoryRow 6 1 None (Some (lit "y"))])
    (Some [OutputRow 5 2 (Some (lit "1"))]).

Definition disk (name : str) : option file :=
  if bool_decide (name = file_a) then Some (File 100 (Sqlite store_a))
  else if bool_decide (name = file_b) then Some (File 200 (Sqlite store_b))
  else if bool_decide (name = file_c) then Some (File 150 (Sqlite (Database None None None)))
  else if bool_decide (name = file_d) then Some (File 50 NotADatabase)
  else None.

Definition source_files : list str := [file_b; file_c; file_a; file_d].

(** The session of host A as the queries return it, and its copy in the
    file of host B. *)
Definition session_a : item :=
  (SessionRow 1 (Some (lit "2024-01-01 10:00")) (Some (lit "2024-01-01 11:00")) (Some 2) None,
   [HistoryRow 1 1 (Some (lit "x = 1")) (Some (lit "x = 1"));
    HistoryRow 1 2 (Some (lit "x")) (Some (lit "x"))],
   [OutputRow 1 2 (Some (lit "1"))]).

Definition session_b : item :=
  (SessionRow 5 (Some (lit "2024-03-03 10:00")) None (Some 2) (Some (lit "copy")),
   [HistoryRow 5 1 (Some (lit "x = 1")) (Some (lit "x = 1"));
    HistoryRow 5 2 (Some (lit "x")) (Some (lit "x"))],
   [OutputRow 5 2 (Some (lit "1"))]).

(** A store whose [history] table was made without the primary key
    of the schema: its first session is in order, its second session
    holds line 1 twice.  And the directory that holds it next to the
    file of host A. *)
Definition file_k : str := lit "ipython_history_hostK_4_50.db".

Definition store_k : database :=
  Database
    (Some [SessionRow 1 (Some (lit "2024-04-04 08:00")) None (Some 1) None;
           SessionRow 2 (Some (lit "2024-04-04 09:00")) None (Some 2) None])
    (Some [HistoryRow 1 1 (Some (lit "a")) (Some (lit "a"));
           HistoryRow 2 1 (Some (lit "b")) (Some (lit "b"));
           HistoryRow 2 1 (Some (lit "c")) (Some (lit "c"))])
    (Some []).

Definition unkeyed_disk (name : str) : option file :=
  if bool_decide (name = file_k) then Some (File 50 (Sqlite store_k))
  else disk name.

End Example.

(** ** Session start ([sync_and_get_hist_file])

    The directory now comes with the content of its files.  The function
    reads the clock twice, once for the timestamp of its file names and
    once more inside [cleanup_old_files]; both readings are parameters,
    as is the modification time that the file system gives the target.
    [expanduser] and [mkdir] have no effect on a directory that is
    there; writing and copying a file are taken to succeed; what the
    function prints is left out. *)

Module Sync.

(** The entries of the directory, each with its file.  [names] is the
    listing; an entry that is written anew is listed last. *)
Abbreviation directory := (list (str * Merger.file)).

Definition names (d : directory) : list str := d.*1.

(** The file of a name, if the directory has one. *)
Definition read (d : directory) (name : str) : option Merger.file :=
  (λ e, e.2) <$> head (filter (λ e, e.1 = name) d).

(** Creating a file, or overwriting the one of that name. *)
Definition put (name : str) (f : Merger.file) (d : directory) : directory :=
  filter (λ e, e.1 ≠ name) d ++ [(name, f)].

(** [int(x)] on a [float]: truncation towards zero. *)
Definition int_of_float (x : Q) : Z := Z.quot (Qnum x) (Z.pos (Qden x)).

(** The target connection after the three [CREATE TABLE IF NOT EXISTS]:
    the tables that are there keep their rows, the others are empty.
    On a file that is not a database the first statement raises. *)
Definition create_tables (c : Merger.file_content) : Merger.sqlite_error + Merger.target_db :=
  match c with
  | Merger.NotADatabase => inl Merger.DatabaseError
  | Merger.Sqlite db =>
      inr (Merger.Target (default [] (Merger.sessions db))
                         (default [] (Merger.history db))
                         (default [] (Merger.output_history db)))
  end.

(** The file that [commit] leaves. *)
Definition store (t : Merger.target_db) : Merger.file_content :=
  Merger.Sqlite (Merger.Database (Some (Merger.t_sessions t))
                                 (Some (Merger.t_history t))
                                 (Some (Merger.t_output_history t))).

(** [shutil.copy2(src, dst)] behind [if src.exists()]: content and
    modification time are copied. *)
Definition copy_if_exists (src dst : str) (d : directory) : directory :=
  match read d src with
  | Some f => put dst f d
  | None => d
  end.

Inductive error :=
| CatalogError (e : Catalog.exn)
| TargetError (e : Merger.sqlite_error)
| CleanupError (e : Cleaner.exn).

Section WithHost.
(** [socket.gethostname()] and [os.getpid()]. *)
Variables (hostname : str) (pid : Z).
Variable can_unlink : str → bool.
(** [time.time()] in [sync_and_get_hist_file] and in
    [cleanup_old_files], and the modification time of the target. *)
Variables (started cleaned : Q) (written : Z).
Variable verbose : bool.

(** [merge_histories] with its target on disk: the connection to
    [target_file], the run, and the commit.  The sources are read as
    they are before the run; the target that [sync_and_get_hist_file]
    passes is never one of them. *)
Definition merge_to_file (source_files : list str) (target_file : str)
    (d : directory) : Merger.sqlite_error + directory :=
  match create_tables (Merger.connect (read d) target_file) with
  | inl e => inl e
  | inr t =>
      let st := Merger.merge_histories (read d) verbose source_files t in
      inr (put target_file (Merger.File written (store (Merger.target st))) d)
  end.

Definition timestamp : Z := int_of_float started.
Definition current_file : str := Grammar.in_progress hostname pid timestamp.
Definition completed_file : str := Grammar.completed hostname timestamp.

(** The directory after [cleanup_old_files] with its default
    [max_age_seconds]. *)
Definition cleaned_up (d : directory) : Cleaner.exn + directory :=
  match Cleaner.cleanup_old_files can_unlink (names d) hostname current_file
          cleaned 300 with
  | inl e => inl e
  | inr kept => inr (filter (λ e, e.1 ∈ kept) d)
  end.

(** The returned path and the directory when the function returns. *)
Definition sync_and_get_hist_file (d : directory) : error + (str * directory) :=
  match Catalog.get_safe_files_for_merge hostname (names d) current_file with
  | inl e => inl (CatalogError e)
  | inr safe_files =>
      match (match safe_files with
             | _ :: _ => merge_to_file safe_files current_file d
             | [] => inr d
             end) with
      | inl e => inl (TargetError e)
      | inr merged =>
          match cleaned_up (copy_if_exists current_file completed_file merged) with
          | inl e => inl (CleanupError e)
          | inr d' => inr (current_file, d')
          end
      end
  end.

(** The function registered with [atexit]. *)
Definition cleanup_on_exit (d : directory) : directory :=
  copy_if_exists current_file completed_file d.
End WithHost.

End Sync.

(** ** Notions that the further properties use *)

Module Notions.

(** A name of the grammar, of either form, with a host name that holds
    no delimiter and does not begin with the completed marker. *)
Definition well_formed (name : str) : Prop :=
  ∃ h t, Grammar.plain_host h
         ∧ (name = Grammar.completed h t ∨ ∃ p, name = Grammar.in_progress h p t).

(** [g] does not come before [f] when a list is sorted in reverse by
    the key of the catalog. *)
Definition key_order (current_hostname f g : str) : Prop :=
  ∀ a b, Catalog.sort_key current_hostname f = Some a →
         Catalog.sort_key current_hostname g = Some b →
         Catalog.key_lt a b = false.

(** A source store in which a missing [output_history] is an empty one. *)
Definition with_output_table (c : Merger.file_content) : Merger.file_content :=
  match c with
  | Merger.NotADatabase => Merger.NotADatabase
  | Merger.Sqlite db =>
      Merger.Sqlite (Merger.Database (Merger.sessions db) (Merger.history db)
                       (Some (default [] (Merger.output_history db))))
  end.

Definition with_output_tables (disk : str → option Merger.file) (name : str)
    : option Merger.file :=
  (λ f, Merger.File (Merger.mtime f) (with_output_table (Merger.content f))) <$> disk name.

(** The test that [cleanup_old_files] makes on a file it visits: not the
    file in use, a timestamp below the cutoff, and [unlink] permitted. *)
Definition removable (can_unlink : str → bool) (current_file : str)
    (cutoff_time : Binary64.float) (f : str) : bool :=
  bool_decide (f ≠ current_file) && can_unlink f
  && from_option (λ t, Cleaner.older t cutoff_time) false (Grammar.file_timestamp f).

(** One table is an extension of another: the old rows come first. *)
Definition extends (t0 t : Merger.target_db) : Prop :=
  Merger.t_sessions t0 `prefix_of` Merger.t_sessions t
  ∧ Merger.t_history t0 `prefix_of` Merger.t_history t
  ∧ Merger.t_output_history t0 `prefix_of` Merger.t_output_history t.

(** A statement of the merger that leaves the rows of the target in
    place, whether it returns or raises. *)
Definition grows {A} (m : Merger.M A) : Prop :=
  ∀ st, extends (Merger.target st) (Merger.target (m st).2).

(** A property of the state that a statement of the merger keeps. *)
Definition keeps {A} (I : Merger.state → Prop) (m : Merger.M A) : Prop :=
  ∀ st, I st → I (m st).2.

(** The primary keys of the two tables of rows hold in the target. *)
Definition keyed (st : Merger.state) : Prop :=
  NoDup (map (λ r, (Merger.h_session r, Merger.line r))
           (Merger.t_history (Merger.target st)))
  ∧ NoDup (map (λ r, (Merger.o_session r, Merger.o_line r))
             (Merger.t_output_history (Merger.target st))).

(** A session of the target as a later run reads it from the file
    [g]: its row and its rows of commands and outputs, under the id it
    was written with. *)
Definition reread (g : str) (p : Z * (str * Merger.item)) : str * Merger.item :=
  (g, (Merger.session_written p, Merger.history_written p, Merger.output_written p)).

End Notions.

(** * Properties *)

(** ** Strings *)

Module PyStrFacts.
Import PyStr.

Lemma startswith_spec p s : startswith p s = true ↔ ∃ r, s = p ++ r.
Proof.
  revert s. induction p as [|a p IH]; intros s; simpl.
  - split; eauto.
  - destruct s as [|b s].
    + split; [done | intros [r ?]; discriminate].
    + rewrite andb_true_iff, bool_decide_eq_true, IH. split.
      * intros [-> [r ->]]. eauto.
      * intros [r [= -> ->]]. eauto.
Qed.

Lemma startswith_app p r : startswith p (p ++ r) = true.
Proof. apply startswith_spec. eauto. Qed.


(** A pattern that begins with its only separator cannot straddle the
    point where the text has that separator. *)
Lemma startswith_boundary sep w s t :
  sep ∉ w → s ≠ [] →
  startswith (sep :: w) (s ++ sep :: t) = startswith (sep :: w) s.
Proof.
  intros Hw Hs. destruct s as [|c s]; [done|]. simpl. f_equal. clear c Hs.
  revert s. induction w as [|a w IH]; intros s; [done|].
  apply not_elem_of_cons in Hw as [Ha Hw].
  destruct s as [|b s]; simpl.
  - by rewrite bool_decide_eq_false_2.
  - by rewrite IH.
Qed.

Lemma endswith_app p r : endswith p (r ++ p) = true.
Proof. unfold endswith. rewrite reverse_app. apply startswith_app. Qed.

Lemma contains_spec p s : contains p s = true ↔ ∃ a b, s = a ++ p ++ b.
Proof.
  induction s as [|c s IH]; simpl.
  - rewrite orb_false_r, startswith_spec. split.
    + intros [r ->]. by exists [], r.
    + intros (a & b & H). destruct a; [by eauto|discriminate].
  - rewrite orb_true_iff, startswith_spec, IH. split.
    + intros [[r ->] | (a & b & ->)]; [by exists [], r | by exists (c :: a), b].
    + intros (a & b & H). destruct a as [|c' a]; simpl in H.
      * left. by eauto.
      * right. injection H as -> ->. eauto.
Qed.

(** *** [split] *)

Lemma split_nonempty sep s : split sep s ≠ [].
Proof. destruct s as [|c s]; simpl; [done|]. case_bool_decide; [done|]. by destruct (split sep s). Qed.

Lemma split_plain sep s : sep ∉ s → split sep s = [s].
Proof.
  induction s as [|c s IH]; intros Hs; [done|].
  apply not_elem_of_cons in Hs as [Hc Hs]. simpl.
  rewrite bool_decide_eq_false_2 by congruence. by rewrite IH.
Qed.

Lemma split_app sep a b : split sep (a ++ sep :: b) = split sep a ++ split sep b.
Proof.
  induction a as [|c a IH]; simpl.
  - by rewrite bool_decide_eq_true_2.
  - case_bool_decide; [by rewrite IH|].
    rewrite IH. pose proof (split_nonempty sep a). by destruct (split sep a).
Qed.

Lemma last_field_app l1 l2 : l2 ≠ [] → last_field (l1 ++ l2) = last_field l2.
Proof.
  unfold last_field. intros Hl2. induction l1 as [|x l1 IH]; [done|].
  simpl. destruct (l1 ++ l2) eqn:E; [|done].
  by apply app_eq_nil in E as [_ ?].
Qed.



(** *** [replace] *)

Lemma replace_cons_skip old new c s :
  startswith old (c :: s) = false → replace old new (c :: s) = c :: replace old new s.
Proof. intros H. simp replace. by rewrite H. Qed.

Lemma replace_absent old new s : contains old s = false → replace old new s = s.
Proof.
  induction s as [|c s IH]; intros H; [by simp replace|].
  simpl in H. apply orb_false_iff in H as [H1 H2].
  rewrite replace_cons_skip by done. by rewrite IH.
Qed.

(** The text is replaced piecewise around a separator when the pattern
    begins with its only separator. *)
Lemma replace_app sep w new s t :
  sep ∉ w →
  replace (sep :: w) new (s ++ sep :: t)
  = replace (sep :: w) new s ++ replace (sep :: w) new (sep :: t).
Proof.
  intros Hw. remember (length s) as n eqn:Hn. revert s Hn.
  induction n as [n IH] using lt_wf_ind. intros s ->.
  destruct s as [|c s]; [by rewrite replace_equation_1|].
  change ((c :: s) ++ sep :: t) with (c :: (s ++ sep :: t)).
  rewrite (replace_equation_2 _ _ c (s ++ sep :: t)), (replace_equation_2 _ _ c s).
  change (c :: (s ++ sep :: t)) with ((c :: s) ++ sep :: t).
  rewrite startswith_boundary by done.
  replace (length (sep :: w) - 1)%nat with (length w) by (simpl; lia).
  destruct (startswith (sep :: w) (c :: s)) eqn:Hpre.
  - apply startswith_spec in Hpre as [r Hr]. injection Hr as -> ->.
    rewrite <- (app_assoc w r), !drop_app_length.
    rewrite (IH (length r)); [by rewrite app_assoc| |done].
    simpl. rewrite length_app. lia.
  - simpl. f_equal. apply (IH (length s)); [simpl; lia | done].
Qed.

(** *** [rfind] and [stem] *)

Lemma rfind_app c s t i :
  rfind c t = Some i → rfind c (s ++ t) = Some (length s + i)%nat.
Proof. intros Ht. induction s as [|a s IH]; simpl; [done|]. by rewrite IH. Qed.

Lemma stem_db s : s ≠ [] → PyPath.stem (s ++ lit ".db") = s.
Proof.
  intros Hs. unfold PyPath.stem.
  rewrite (rfind_app _ s (lit ".db") 0) by done.
  rewrite length_app, Nat.add_0_r. simpl length.
  destruct s as [|c s]; [done|]. simpl length.
  replace (0 <? S (length s))%nat with true by (symmetry; apply Nat.ltb_lt; lia).
  replace (S (length s) <? S (length s) + 3 - 1)%nat with true
    by (symmetry; apply Nat.ltb_lt; lia).
  simpl andb. cbv iota.
  change (S (length s)) with (length (c :: s)). by rewrite take_app_length.
Qed.

(** *** Decimal numerals *)

Lemma digit_of_char d : (d < 10)%N → digit_of (digit_char d) = Some (Z.of_N d).
Proof.
  intros Hd. rewrite <- (N2Nat.id d). assert (N.to_nat d < 10)%nat as Hn by lia.
  clear Hd. generalize dependent (N.to_nat d). clear d. intros n Hn.
  do 10 (destruct n as [|n]; [reflexivity|]). lia.
Qed.

Lemma digits_of_digits n : Forall is_digit (digits_of n) ∧ digits_of n ≠ [].
Proof.
  induction n as [n IH] using (well_founded_induction N.lt_wf_0).
  rewrite digits_of_equation_1. destruct (decide (n < 10)%N) as [Hn|Hn].
  - split; [|done]. apply Forall_singleton. unfold is_digit.
    by rewrite digit_of_char.
  - destruct (IH (n / 10)%N) as [IH1 IH2]; [apply N.div_lt; lia|].
    split; [|by destruct (digits_of (n / 10))].
    apply Forall_app. split; [done|]. apply Forall_singleton. unfold is_digit.
    rewrite digit_of_char; [done|]. apply N.mod_lt. lia.
Qed.

Lemma digits_val_snoc s c :
  digits_val (s ++ [c]) = a ← digits_val s; d ← digit_of c; Some (10 * a + d).
Proof. unfold digits_val. by rewrite foldl_app. Qed.

Lemma digits_val_of n : digits_val (digits_of n) = Some (Z.of_N n).
Proof.
  induction n as [n IH] using (well_founded_induction N.lt_wf_0).
  rewrite digits_of_equation_1. destruct (decide (n < 10)%N) as [Hn|Hn].
  - change (digits_val [digit_char n]) with
      (d ← digit_of (digit_char n); Some (10 * 0 + d)).
    rewrite digit_of_char by done. simpl; f_equal; lia.
  - rewrite digits_val_snoc, IH by (apply N.div_lt; lia).
    rewrite digit_of_char by (apply N.mod_lt; lia).
    pose proof (N.div_mod' n 10). simpl; f_equal; lia.
Qed.

Lemma numeric_of_int z : numeric (of_int z).
Proof.
  unfold of_int, numeric. destruct (decide (z < 0)).
  - split; [|done]. constructor; [by right|].
    eapply Forall_impl; [apply digits_of_digits|]. by left.
  - split; [|apply digits_of_digits].
    eapply Forall_impl; [apply digits_of_digits|]. by left.
Qed.

Lemma numeric_char (P : ascii → Prop) s :
  numeric s → (∀ c, is_digit c → P c) → P "-"%char → Forall P s.
Proof.
  intros [Hs _] Hd Hm. eapply Forall_impl; [exact Hs|].
  intros c [?| ->]; auto.
Qed.

Lemma not_digit c : digit_of c = None → ¬ is_digit c.
Proof. intros H [d Hd]. unfold is_digit in *. congruence. Qed.

Lemma numeric_no_sep s : numeric s → "_"%char ∉ s.
Proof.
  intros Hs Hin.
  assert (Forall (λ c, c ≠ "_"%char) s) as H.
  { apply numeric_char; [done| |done]. intros c Hc ->. by apply (not_digit "_"%char). }
  rewrite Forall_forall in H. by apply (H _ Hin).
Qed.

Lemma numeric_no_space s : numeric s → Forall (λ c, is_space c = false) s.
Proof.
  intros Hs. apply numeric_char; [done| |done].
  intros c [d Hd]. unfold digit_of in Hd. unfold is_space.
  destruct (48 <=? nat_of_ascii c)%nat eqn:H1; [|done].
  destruct (nat_of_ascii c <=? 57)%nat eqn:H2; [|done].
  apply Nat.leb_le in H1, H2.
  replace (nat_of_ascii c <=? 13)%nat with false by (symmetry; apply Nat.leb_gt; lia).
  replace (nat_of_ascii c =? 32)%nat with false by (symmetry; apply Nat.eqb_neq; lia).
  by rewrite !andb_false_r.
Qed.

Lemma numeric_not_completed s : numeric s → startswith (lit "completed") s = false.
Proof.
  intros [Hs Hne]. destruct s as [|c s]; [done|].
  apply Forall_cons in Hs as [[Hc| ->] _]; [|done].
  change (bool_decide ("c"%char = c) && startswith (lit "ompleted") s = false).
  rewrite bool_decide_eq_false_2; [done|]. intros <-. by apply (not_digit "c"%char).
Qed.

Lemma lstrip_id s : Forall (λ c, is_space c = false) s → lstrip s = s.
Proof. intros Hs. destruct s as [|c s]; [done|]. simpl. by apply Forall_cons in Hs as [-> _]. Qed.

Lemma strip_id s : Forall (λ c, is_space c = false) s → strip s = s.
Proof.
  intros Hs. unfold strip. rewrite (lstrip_id s) by done.
  rewrite lstrip_id; [apply reverse_involutive|].
  by apply Forall_reverse.
Qed.

(** [int(str(z)) == z] *)
Lemma int_of_int z : int (of_int z) = Some z.
Proof.
  unfold int. rewrite strip_id by apply numeric_no_space, numeric_of_int.
  unfold of_int. destruct (decide (z < 0)) as [Hz|Hz].
  - rewrite bool_decide_eq_false_2, bool_decide_eq_true_2 by done.
    unfold unsigned_int. pose proof (digits_of_digits (Z.abs_N z)) as [_ Hne].
    destruct (digits_of (Z.abs_N z)) eqn:E; [done|].
    rewrite <- E, digits_val_of. simpl. f_equal. lia.
  - pose proof (digits_of_digits (Z.to_N z)) as [Hd Hne].
    destruct (digits_of (Z.to_N z)) as [|c r] eqn:E; [done|].
    apply Forall_cons in Hd as [Hc _].
    rewrite !bool_decide_eq_false_2.
    + unfold unsigned_int. rewrite <- E, digits_val_of. f_equal. lia.
    + intros ->. by apply (not_digit "-"%char).
    + intros ->. by apply (not_digit "+"%char).
Qed.

End PyStrFacts.

(** ** The file-name grammar *)

Module GrammarFacts.
Import PyStr PyStrFacts Grammar.

Lemma sep_not_in_completed : "_"%char ∉ lit "completed".
Proof. intros H. repeat (apply elem_of_cons in H as [H|H]; [discriminate|]). by apply elem_of_nil in H. Qed.

(** A formatted integer after a separator is left alone. *)
Lemma replace_numeric t :
  numeric t → replace (lit "_completed") [] ("_"%char :: t) = "_"%char :: t.
Proof.
  intros Ht. apply replace_absent, not_true_is_false.
  intros (a & b & H)%contains_spec. destruct a as [|c a].
  - injection H as ->.
    pose proof (numeric_not_completed _ Ht) as Hb. by vm_compute in Hb.
  - injection H as _ ->. apply (numeric_no_sep _ Ht).
    apply elem_of_app. right. by left.
Qed.

Lemma replace_before_numeric s t :
  numeric t →
  replace (lit "_completed") [] (s ++ "_"%char :: t)
  = replace (lit "_completed") [] s ++ "_"%char :: t.
Proof.
  intros Ht. change (lit "_completed") with ("_"%char :: lit "completed").
  rewrite replace_app by apply sep_not_in_completed.
  f_equal. by apply replace_numeric.
Qed.

Lemma replace_marker_at_end s :
  replace (lit "_completed") [] (s ++ lit "_completed") = replace (lit "_completed") [] s.
Proof.
  change (lit "_completed") with ("_"%char :: lit "completed").
  rewrite replace_app by apply sep_not_in_completed.
  replace (replace ("_"%char :: lit "completed") [] ("_"%char :: lit "completed"))
    with (@nil ascii) by (by vm_compute).
  apply app_nil_r.
Qed.

Lemma stem_in_progress h p t :
  PyPath.stem (in_progress h p t)
  = (lit "ipython_history_" ++ h ++ "_"%char :: of_int p) ++ "_"%char :: of_int t.
Proof.
  unfold in_progress.
  change (lit "_" ++ of_int p ++ lit "_" ++ of_int t ++ lit ".db")
    with ("_"%char :: of_int p ++ "_"%char :: of_int t ++ lit ".db").
  replace (lit "ipython_history_" ++ h ++ "_"%char :: of_int p ++ "_"%char :: of_int t ++ lit ".db")
    with (((lit "ipython_history_" ++ h ++ "_"%char :: of_int p) ++ "_"%char :: of_int t) ++ lit ".db")
    by (by rewrite <- !app_assoc).
  by apply stem_db.
Qed.

Lemma stem_completed h t :
  PyPath.stem (completed h t)
  = ((lit "ipython_history_" ++ h) ++ "_"%char :: of_int t) ++ lit "_completed".
Proof.
  unfold completed.
  change (lit "_" ++ of_int t ++ lit "_completed.db")
    with ("_"%char :: of_int t ++ lit "_completed" ++ lit ".db").
  replace (lit "ipython_history_" ++ h ++ "_"%char :: of_int t ++ lit "_completed" ++ lit ".db")
    with ((((lit "ipython_history_" ++ h) ++ "_"%char :: of_int t) ++ lit "_completed") ++ lit ".db")
    by (by rewrite <- !app_assoc).
  by apply stem_db.
Qed.

Lemma fields_in_progress h p t :
  fields (in_progress h p t)
  = split "_"%char (replace (lit "_completed") []
                      (lit "ipython_history_" ++ h ++ "_"%char :: of_int p))
    ++ [of_int t].
Proof.
  unfold fields. rewrite stem_in_progress.
  rewrite replace_before_numeric by apply numeric_of_int.
  rewrite split_app. f_equal. apply split_plain, numeric_no_sep, numeric_of_int.
Qed.

Lemma fields_completed h t :
  fields (completed h t)
  = split "_"%char (replace (lit "_completed") [] (lit "ipython_history_" ++ h))
    ++ [of_int t].
Proof.
  unfold fields. rewrite stem_completed, replace_marker_at_end.
  rewrite replace_before_numeric by apply numeric_of_int.
  rewrite split_app. f_equal. apply split_plain, numeric_no_sep, numeric_of_int.
Qed.

(** The timestamp of a name of the grammar is read back, whatever the
    host name is. *)
Lemma file_timestamp_in_progress h p t : file_timestamp (in_progress h p t) = Some t.
Proof.
  unfold file_timestamp. rewrite fields_in_progress, last_field_app by done.
  apply int_of_int.
Qed.

Lemma file_timestamp_completed h t : file_timestamp (completed h t) = Some t.
Proof.
  unfold file_timestamp. rewrite fields_completed, last_field_app by done.
  apply int_of_int.
Qed.

Lemma matches_in_progress h p t : PyPath.matches (host_pattern h) (in_progress h p t) = true.
Proof.
  unfold PyPath.matches, host_pattern, in_progress. simpl PyPath.before. simpl PyPath.after.
  replace (lit "ipython_history_" ++ h ++ lit "_" ++ of_int p ++ lit "_" ++ of_int t ++ lit ".db")
    with ((lit "ipython_history_" ++ h ++ lit "_") ++ (of_int p ++ lit "_" ++ of_int t) ++ lit ".db")
    by (by rewrite <- !app_assoc).
  by rewrite startswith_app, drop_app_length, endswith_app.
Qed.

Lemma matches_completed h t : PyPath.matches (host_pattern h) (completed h t) = true.
Proof.
  unfold PyPath.matches, host_pattern, completed. simpl PyPath.before. simpl PyPath.after.
  change (lit "_completed.db") with (lit "_completed" ++ lit ".db").
  replace (lit "ipython_history_" ++ h ++ lit "_" ++ of_int t ++ lit "_completed" ++ lit ".db")
    with ((lit "ipython_history_" ++ h ++ lit "_") ++ (of_int t ++ lit "_completed") ++ lit ".db")
    by (by rewrite <- !app_assoc).
  by rewrite startswith_app, drop_app_length, endswith_app.
Qed.

End GrammarFacts.

(** ** Retention cleaner *)

Module CleanerFacts.
Import Cleaner GrammarFacts.

Lemma older_finite t c : older t (Binary64.Finite c) = true ↔ (inject_Z t < c)%Q.
Proof.
  unfold older, Binary64.int_lt.
  rewrite negb_true_iff, <- not_true_iff_false, Qle_bool_iff.
  split; [apply Qnot_le_lt | apply Qlt_not_le].
Qed.

(** Against an exact cutoff the test is the comparison of the numbers. *)
Lemma older_exact now max_age c t :
  (c == now - inject_Z max_age)%Q →
  older t (Binary64.Finite c) = true ↔ (inject_Z t < now - inject_Z max_age)%Q.
Proof. intros Hc. by rewrite older_finite, Hc. Qed.

Section WithFilesystem.
Variable can_unlink : str → bool.
Variables (current_file : str) (cutoff_time : Binary64.float).

Local Abbreviation doomed := (Cleaner.doomed can_unlink current_file cutoff_time).

Lemma elem_of_visit dir f g :
  g ∈ visit can_unlink current_file cutoff_time dir f
  ↔ g ∈ dir ∧ ¬ (g = f ∧ doomed f).
Proof.
  unfold visit, doomed. case_bool_decide as Hcur.
  { split; [|by intros []]. intros Hg. split; [done|]. by intros (_ & ? & _). }
  destruct (Grammar.file_timestamp f) as [t|] eqn:Ht.
  2:{ split; [|by intros []]. intros Hg. split; [done|]. by intros (_ & _ & _ & t & ? & _). }
  destruct (older t cutoff_time) eqn:Hold.
  2:{ split; [|by intros []]. intros Hg. split; [done|].
      intros (_ & _ & _ & t' & [= <-] & Hlt). congruence. }
  unfold unlink.
  destruct (can_unlink f) eqn:Hcan; simpl.
  2:{ split; [|by intros []]. intros Hg. split; [done|]. by intros (_ & _ & ? & _). }
  case_bool_decide as Hin; simpl.
  - rewrite list_elem_of_filter. split.
    + intros [Hne Hg]. split; [done|]. by intros [? _].
    + intros [Hg Hn]. split; [|done]. intros ->. apply Hn. eauto 10.
  - split; [|by intros []]. intros Hg. split; [done|]. by intros [-> _].
Qed.

Lemma elem_of_visits l dir g :
  g ∈ foldl (visit can_unlink current_file cutoff_time) dir l
  ↔ g ∈ dir ∧ ¬ (g ∈ l ∧ doomed g).
Proof.
  revert dir. induction l as [|f l IH]; intros dir; simpl.
  - split; [|by intros []]. intros Hg. split; [done|]. intros [[]%elem_of_nil _].
  - rewrite IH, elem_of_visit. split.
    + intros [[Hg Hf] Hl]. split; [done|].
      intros [[->|?]%elem_of_cons Hd]; [by apply Hf | by apply Hl].
    + intros [Hg Hn]. repeat split; [done| |].
      * intros [-> Hd]. apply Hn. split; [by left|done].
      * intros [Hl Hd]. apply Hn. split; [by right|done].
Qed.

Lemma elem_of_sweep p dir g :
  g ∈ sweep can_unlink p current_file cutoff_time dir
  ↔ g ∈ dir ∧ ¬ (PyPath.matches p g = true ∧ doomed g).
Proof.
  unfold sweep, PyPath.glob. rewrite elem_of_visits. split.
  - intros [Hg Hn]. split; [done|]. intros [Hm Hd]. apply Hn. split; [|done].
    apply list_elem_of_filter. split; [by apply Is_true_true|done].
  - intros [Hg Hn]. split; [done|].
    intros [[Hm _]%list_elem_of_filter Hd]. apply Hn. split; [|done].
    by apply Is_true_true.
Qed.

(** A file of the host stays exactly when no visit removes it. *)
Lemma elem_of_sweeps sync_dir hostname f :
  PyPath.matches (Grammar.host_pattern hostname) f = true →
  f ∈ sweeps can_unlink sync_dir hostname current_file cutoff_time
  ↔ f ∈ sync_dir ∧ ¬ doomed f.
Proof.
  intros Hm. unfold sweeps. rewrite !elem_of_sweep.
  fold (Grammar.host_pattern hostname). split.
  - intros [[Hf Hn] _]. split; [done|]. intros Hd. by apply Hn.
  - intros [Hf Hn]. repeat split; [done|by intros [_ ?]|by intros [_ ?]].
Qed.
End WithFilesystem.

(** With an exact cutoff the function returns, and a file of the host
    that may be unlinked is gone exactly when its timestamp is below
    the difference. *)
Lemma cleanup_exact can_unlink sync_dir hostname current_file now max_age :
  exact_cutoff now max_age →
  ∃ after, cleanup_old_files can_unlink sync_dir hostname current_file now max_age
           = inr after
    ∧ ∀ f, PyPath.matches (Grammar.host_pattern hostname) f = true →
           f ∈ sync_dir → f ≠ current_file → can_unlink f = true →
           (f ∉ after ↔ ∃ t, Grammar.file_timestamp f = Some t
                             ∧ (inject_Z t < now - inject_Z max_age)%Q).
Proof.
  intros (c & Hsub & Hc). unfold cleanup_old_files. rewrite Hsub.
  eexists. split; [done|]. intros f Hm Hf Hcur Hcan.
  rewrite elem_of_sweeps by done. unfold Cleaner.doomed. split.
  - intros Hn. destruct (Grammar.file_timestamp f) as [t|] eqn:Ht.
    + exists t. split; [done|]. apply (older_exact _ _ c); [done|].
      destruct (older t (Binary64.Finite c)) eqn:Hold; [done|].
      exfalso. apply Hn. split; [done|]. intros (_ & _ & t' & [= <-] & Hlt). congruence.
    + exfalso. apply Hn. split; [done|]. by intros (_ & _ & t' & ? & _).
  - intros (t & Ht & Hlt) [_ Hn]. apply Hn. repeat split; [done..|].
    exists t. split; [done|]. by apply (older_exact now max_age).
Qed.

End CleanerFacts.

(** C5. [cleanup_old_files] removes a file of the local host, other than
    the file in use, if and only if its parsed timestamp is strictly
    below [now - max_age_seconds]: a file stamped exactly
    [now - max_age_seconds] stays, one stamped one second earlier goes.
    A file of the local host is one that the pattern
    [ipython_history_{hostname}_*.db] selects; [unlink] is taken to be
    permitted on it, and the floating-point subtraction that yields
    the cutoff is taken to be exact. *)
Theorem C5_cleanup_boundary (can_unlink : str → bool) (sync_dir : list str)
    (hostname current_file : str) (now : Q) (max_age_seconds : Z) :
  PyPath.glob_plain hostname = true →
  Cleaner.exact_cutoff now max_age_seconds →
  ∃ after,
    Cleaner.cleanup_old_files can_unlink sync_dir hostname current_file
      now max_age_seconds = inr after
    ∧ (∀ f, f ∈ sync_dir → PyPath.matches (Grammar.host_pattern hostname) f = true →
          f ≠ current_file → can_unlink f = true →
          (f ∉ after ↔ ∃ t, Grammar.file_timestamp f = Some t
                            ∧ (inject_Z t < now - inject_Z max_age_seconds)%Q))
    ∧ (∀ pid t, let f := Grammar.in_progress hostname pid t in
          f ∈ sync_dir → f ≠ current_file → can_unlink f = true →
          ((inject_Z t == now - inject_Z max_age_seconds)%Q → f ∈ after)
          ∧ ((inject_Z t == now - inject_Z max_age_seconds - 1)%Q → f ∉ after)).
Proof.
  intros _ Hexact.
  destruct (CleanerFacts.cleanup_exact can_unlink sync_dir hostname current_file
              now max_age_seconds Hexact) as (after & Hafter & Hiff).
  exists after. split; [done|]. split.
  { intros f Hf Hm Hcur Hcan. by apply Hiff. }
  intros pid t f Hf Hcur Hcan.
  pose proof (Hiff f (GrammarFacts.matches_in_progress _ _ _) Hf Hcur Hcan) as H.
  unfold f in H. rewrite GrammarFacts.file_timestamp_in_progress in H. split.
  - intros Heq. destruct (decide (f ∈ after)) as [?|Hout]; [done|].
    apply H in Hout as (t' & [= <-] & Hlt). rewrite Heq in Hlt.
    by apply Qlt_irrefl in Hlt.
  - intros Heq. apply H. exists t. split; [done|]. rewrite Heq.
    apply Qlt_minus_iff. ring_simplify. reflexivity.
Qed.

Lemma C5_cleanup_boundary_witness :
  let hostA := lit "hostA" in
  let at_cutoff := Grammar.in_progress hostA 100 700 in
  let past_cutoff := Grammar.in_progress hostA 100 699 in
  (PyPath.glob_plain hostA = true ∧ Cleaner.exact_cutoff (inject_Z 1000) 300)
  ∧ ∃ after,
      Cleaner.cleanup_old_files (λ _, true) [past_cutoff; at_cutoff] hostA
        (Grammar.in_progress hostA 999 2000) (inject_Z 1000) 300 = inr after
      ∧ at_cutoff ∈ after ∧ past_cutoff ∉ after.
Proof.
  intros hostA at_cutoff past_cutoff.
  assert (Cleaner.exact_cutoff (inject_Z 1000) 300) as Hexact.
  { exists (inject_Z 700). split; [by vm_compute | reflexivity]. }
  destruct (C5_cleanup_boundary (λ _, true) [past_cutoff; at_cutoff] hostA
              (Grammar.in_progress hostA 999 2000) (inject_Z 1000) 300 eq_refl Hexact)
    as (after & Hafter & _ & H).
  split; [by split|]. exists after. split; [done|]. split.
  - apply (H 100 700); [by right; left | by vm_compute | reflexivity | by vm_compute].
  - apply (H 100 699); [by left | by vm_compute | reflexivity | by vm_compute].
Defined.

(** ** Host names that contain the delimiter *)

Module UnderscoreFacts.
Import PyStr PyStrFacts Grammar GrammarFacts.

(** The fields of an in-progress name: at least four of them, the
    last one the timestamp, whatever the host name is. *)
Lemma fields_in_progress_shape h p t :
  ∃ x y rest, fields (in_progress h p t) = lit "ipython" :: x :: y :: rest ++ [of_int t].
Proof.
  rewrite fields_in_progress.
  replace (lit "ipython_history_" ++ h ++ "_"%char :: of_int p)
    with ((lit "ipython_history" ++ "_"%char :: h) ++ "_"%char :: of_int p)
    by (by rewrite <- app_assoc).
  rewrite replace_before_numeric by apply numeric_of_int.
  change (lit "_completed") with ("_"%char :: lit "completed").
  rewrite replace_app by apply sep_not_in_completed.
  replace (replace ("_"%char :: lit "completed") [] (lit "ipython_history"))
    with (lit "ipython" ++ "_"%char :: lit "history") by (by vm_compute).
  set (r := replace _ _ ("_"%char :: h)).
  rewrite split_app, <- (app_assoc (lit "ipython")).
  change ((("_"%char :: lit "history") ++ r)) with ("_"%char :: (lit "history" ++ r)).
  rewrite split_app.
  replace (split "_"%char (lit "ipython")) with [lit "ipython"] by (by vm_compute).
  pose proof (split_nonempty "_"%char (lit "history" ++ r)) as Hne.
  destruct (split "_"%char (lit "history" ++ r)) as [|x xs]; [done|].
  rewrite (split_plain _ (of_int p)) by apply numeric_no_sep, numeric_of_int.
  simpl. destruct xs as [|y ys]; simpl; eauto.
  by exists x, (of_int p), [].
Qed.

Lemma sort_key_in_progress cur h p t :
  ∃ field, Catalog.sort_key cur (in_progress h p t)
           = Some (bool_decide (field = cur), t).
Proof.
  unfold Catalog.sort_key.
  pose proof (file_timestamp_in_progress h p t) as Ht. unfold file_timestamp in Ht.
  destruct (fields_in_progress_shape h p t) as (x & y & rest & E).
  rewrite E in Ht |- *. rewrite Ht.
  exists y. simpl length. rewrite length_app. simpl length.
  replace (4 <=? S (S (S (length rest + 1))))%nat with true
    by (symmetry; apply Nat.leb_le; lia).
  done.
Qed.
End UnderscoreFacts.

(** C9, as the code has it.  A name whose host name holds the delimiter
    is not unparsable: the timestamp is the last field and is read back
    as the file's own, for an in-progress and for a completed name; the
    sort key of the catalog carries that timestamp, not the fallback;
    and cleanup for that host removes the file exactly when the
    timestamp is below the cutoff, the floating-point subtraction that
    yields the cutoff being exact. *)
Theorem C9_underscore_hostname_is_parsed (can_unlink : str → bool)
    (sync_dir : list str) (hostname current_hostname current_file : str)
    (now : Q) (max_age_seconds pid t : Z) :
  "_"%char ∈ hostname → PyPath.glob_plain hostname = true →
  Grammar.file_timestamp (Grammar.in_progress hostname pid t) = Some t
  ∧ Grammar.file_timestamp (Grammar.completed hostname t) = Some t
  ∧ (∃ field, Catalog.sort_key current_hostname (Grammar.in_progress hostname pid t)
              = Some (bool_decide (field = current_hostname), t))
  ∧ (Cleaner.exact_cutoff now max_age_seconds →
     ∃ after,
       Cleaner.cleanup_old_files can_unlink sync_dir hostname current_file
         now max_age_seconds = inr after
       ∧ ∀ f, f = Grammar.in_progress hostname pid t ∨ f = Grammar.completed hostname t →
           f ∈ sync_dir → f ≠ current_file → can_unlink f = true →
           (f ∉ after ↔ (inject_Z t < now - inject_Z max_age_seconds)%Q)).
Proof.
  intros _ _.
  split; [apply GrammarFacts.file_timestamp_in_progress|].
  split; [apply GrammarFacts.file_timestamp_completed|].
  split; [apply UnderscoreFacts.sort_key_in_progress|].
  intros Hexact.
  destruct (CleanerFacts.cleanup_exact can_unlink sync_dir hostname current_file
              now max_age_seconds Hexact) as (after & Hafter & Hiff).
  exists after. split; [done|].
  intros f Hf Hin Hcur Hcan.
  assert (PyPath.matches (Grammar.host_pattern hostname) f = true
          ∧ Grammar.file_timestamp f = Some t) as [Hm Ht].
  { destruct Hf as [-> | ->].
    - split; [apply GrammarFacts.matches_in_progress | apply GrammarFacts.file_timestamp_in_progress].
    - split; [apply GrammarFacts.matches_completed | apply GrammarFacts.file_timestamp_completed]. }
  rewrite (Hiff f Hm Hin Hcur Hcan), Ht. split.
  - by intros (t' & [= <-] & Hlt).
  - intros Hlt. by exists t.
Qed.

Lemma C9_underscore_hostname_is_parsed_witness :
  let my_box := lit "my_box" in
  let f := Grammar.in_progress my_box 5 100 in
  ("_"%char ∈ my_box ∧ PyPath.glob_plain my_box = true)
  ∧ Grammar.file_timestamp f = Some 100
  ∧ Cleaner.exact_cutoff (inject_Z 1000) 300
  ∧ ∃ after,
      Cleaner.cleanup_old_files (λ _, true) [f] my_box
        (Grammar.in_progress my_box 9 1000) (inject_Z 1000) 300 = inr after
      ∧ f ∉ after.
Proof.
  intros my_box f.
  assert ("_"%char ∈ my_box) as Hsep by (by right; right; left).
  assert (Cleaner.exact_cutoff (inject_Z 1000) 300) as Hexact.
  { exists (inject_Z 700). split; [by vm_compute | reflexivity]. }
  destruct (C9_underscore_hostname_is_parsed (λ _, true) [f] my_box my_box
              (Grammar.in_progress my_box 9 1000) (inject_Z 1000) 300 5 100
              Hsep eq_refl) as (Ht & _ & _ & Hclean).
  destruct (Hclean Hexact) as (after & Hafter & Hgone).
  split; [by split|]. split; [exact Ht|]. split; [exact Hexact|].
  exists after. split; [done|].
  apply (Hgone f); [by left | by left | by vm_compute | reflexivity | by vm_compute].
Defined.

(** C9, as the specification states it, fails on
    [ipython_history_my_box_5_100.db], a file of host [my_box]: its
    timestamp parses, its sort key is not the fallback and carries the
    flag of a foreign host although the file is local, the catalog run
    on [my_box] selects it as safe, and cleanup deletes it. *)
Lemma C9_counterexample :
  let my_box := lit "my_box" in
  let f := lit "ipython_history_my_box_5_100.db" in
  let current_file := lit "ipython_history_my_box_9_1000.db" in
  f = Grammar.in_progress my_box 5 100
  ∧ Grammar.file_timestamp f = Some 100
  ∧ Catalog.sort_key my_box f = Some (false, 100)
  ∧ Catalog.get_safe_files_for_merge my_box [f] current_file = inr [f]
  ∧ Cleaner.cleanup_old_files (λ _, true) [f] my_box current_file (inject_Z 1000) 300
    = inr [].
Proof. by vm_compute. Qed.

(** ** Sorting *)

Module SortFacts.

Section Generic.
Context {A : Type} (before : A → A → bool).

Lemma sort_insert_perm x l : sort_insert before x l ≡ₚ x :: l.
Proof.
  induction l as [|y l IH]; simpl; [done|].
  destruct (before y x); [|done]. rewrite IH. apply Permutation_swap.
Qed.

Lemma stable_sort_perm l : stable_sort before l ≡ₚ l.
Proof.
  induction l as [|x l IH]; simpl; [done|].
  by rewrite sort_insert_perm, IH.
Qed.

Lemma elem_of_stable_sort x l : x ∈ stable_sort before l ↔ x ∈ l.
Proof. by rewrite stable_sort_perm. Qed.
End Generic.

Section Keyed.
Context {A : Type} (key : A → Z).

Lemma sort_insert_sorted x l :
  StronglySorted (λ a b, key a ≤ key b) l →
  StronglySorted (λ a b, key a ≤ key b) (sort_insert (λ a b, key a <? key b) x l).
Proof.
  induction 1 as [|y l Hl IH Hy]; simpl.
  - by repeat constructor.
  - destruct (key y <? key x) eqn:E.
    + apply Z.ltb_lt in E. constructor; [done|].
      rewrite sort_insert_perm. constructor; [lia|done].
    + apply Z.ltb_ge in E. constructor; [by constructor|].
      constructor; [done|]. eapply Forall_impl; [exact Hy|]. simpl. lia.
Qed.

Lemma stable_sort_sorted l :
  StronglySorted (λ a b, key a ≤ key b) (stable_sort (λ a b, key a <? key b) l).
Proof.
  induction l as [|x l IH]; simpl; [constructor|]. by apply sort_insert_sorted.
Qed.

Lemma sort_insert_head x l :
  Forall (λ z, key x ≤ key z) l → sort_insert (λ a b, key a <? key b) x l = x :: l.
Proof.
  destruct 1 as [|y l Hy _]; simpl; [done|].
  by replace (key y <? key x) with false by (symmetry; apply Z.ltb_ge; lia).
Qed.

(** A list in key order is left as it is. *)
Lemma stable_sort_id l :
  StronglySorted (λ a b, key a ≤ key b) l → stable_sort (λ a b, key a <? key b) l = l.
Proof.
  induction 1 as [|x l Hl IH Hx]; simpl; [done|].
  rewrite IH. by apply sort_insert_head.
Qed.


End Keyed.

(** Two members of a sorted list are equal or related one way round. *)
Lemma sorted_elem_of {A} (R : A → A → Prop) l x y :
  StronglySorted R l → x ∈ l → y ∈ l → x = y ∨ R x y ∨ R y x.
Proof.
  induction 1 as [|z l Hl IH Hz]; [by intros ?%elem_of_nil|].
  rewrite Forall_forall in Hz.
  intros [->|Hx]%elem_of_cons [->|Hy]%elem_of_cons; auto.
Qed.

End SortFacts.

(** ** The catalog on names of the grammar *)

Module CatalogFacts.
Import PyStr PyStrFacts Grammar GrammarFacts Catalog.

Lemma startswith_first_field sep w s :
  sep ∉ w → startswith w s = startswith w (default [] (head (split sep s))).
Proof.
  intros Hw. revert s. induction w as [|a w IH]; intros s; [done|].
  apply not_elem_of_cons in Hw as [Ha Hw].
  destruct s as [|c s]; [done|]. simpl.
  destruct (decide (c = sep)) as [->|Hc].
  - rewrite (bool_decide_eq_true_2 (sep = sep)) by done. simpl.
    by rewrite bool_decide_eq_false_2 by congruence.
  - rewrite (bool_decide_eq_false_2 (c = sep)) by done.
    pose proof (split_nonempty sep s) as Hne.
    destruct (split sep s) as [|f0 fs] eqn:E; [done|]. simpl.
    f_equal. rewrite (IH Hw s), E. done.
Qed.

(** The marker occurs where a field other than the first begins with
    its letters. *)
Lemma contains_split sep w s :
  sep ∉ w →
  contains (sep :: w) s = existsb (startswith w) (tail (split sep s)).
Proof.
  intros Hw. induction s as [|c s IH]; [done|].
  change (contains (sep :: w) (c :: s))
    with (startswith (sep :: w) (c :: s) || contains (sep :: w) s).
  rewrite IH. simpl. destruct (decide (c = sep)) as [->|Hc].
  - rewrite !(bool_decide_eq_true_2 (sep = sep)) by done. simpl.
    rewrite (startswith_first_field sep w s Hw).
    pose proof (split_nonempty sep s) as Hne.
    by destruct (split sep s) as [|f0 fs].
  - rewrite (bool_decide_eq_false_2 (c = sep)), (bool_decide_eq_false_2 (sep = c))
      by congruence. simpl.
    pose proof (split_nonempty sep s) as Hne.
    by destruct (split sep s) as [|f0 fs].
Qed.

Lemma split_in_progress h p t :
  "_"%char ∉ h →
  split "_"%char (PyPath.stem (in_progress h p t))
  = [lit "ipython"; lit "history"; h; of_int p; of_int t].
Proof.
  intros Hh. rewrite stem_in_progress.
  rewrite split_app, (split_plain _ (of_int t)) by apply numeric_no_sep, numeric_of_int.
  change (lit "ipython_history_" ++ h ++ "_"%char :: of_int p)
    with (lit "ipython" ++ "_"%char :: (lit "history" ++ "_"%char :: (h ++ "_"%char :: of_int p))).
  rewrite !split_app, (split_plain _ (of_int p)) by apply numeric_no_sep, numeric_of_int.
  by rewrite (split_plain _ h) by done.
Qed.

Lemma split_in_progress_name h p t :
  "_"%char ∉ h →
  split "_"%char (in_progress h p t)
  = [lit "ipython"; lit "history"; h; of_int p; of_int t ++ lit ".db"].
Proof.
  intros Hh. unfold in_progress.
  change (lit "ipython_history_" ++ h ++ lit "_" ++ of_int p ++ lit "_" ++ of_int t ++ lit ".db")
    with (lit "ipython" ++ "_"%char :: (lit "history" ++ "_"%char ::
            (h ++ "_"%char :: (of_int p ++ "_"%char :: (of_int t ++ lit ".db"))))).
  rewrite !split_app.
  rewrite (split_plain _ h), (split_plain _ (of_int p)) by (done || apply numeric_no_sep, numeric_of_int).
  rewrite (split_plain _ (of_int t ++ lit ".db")); [done|].
  intros [Hin|Hin]%elem_of_app; [by apply (numeric_no_sep _ (numeric_of_int t))|].
  by repeat (apply elem_of_cons in Hin as [Hin|Hin]; [discriminate|]); apply elem_of_nil in Hin.
Qed.

Lemma numeric_app_not_completed s r :
  numeric s → startswith (lit "completed") (s ++ r) = false.
Proof.
  intros [Hs Hne]. destruct s as [|c s]; [done|].
  apply Forall_cons in Hs as [[Hc| ->] _]; [|done].
  change (bool_decide ("c"%char = c) && startswith (lit "ompleted") (s ++ r) = false).
  rewrite bool_decide_eq_false_2; [done|]. intros <-. by apply (not_digit "c"%char).
Qed.

Lemma in_progress_unmarked h p t :
  plain_host h → contains (lit "_completed") (in_progress h p t) = false.
Proof.
  intros [Hsep Hpre]. change (lit "_completed") with ("_"%char :: lit "completed").
  rewrite contains_split by apply sep_not_in_completed.
  rewrite split_in_progress_name by done. cbn [tail existsb].
  rewrite Hpre, (numeric_not_completed (of_int p)) by apply numeric_of_int.
  rewrite numeric_app_not_completed by apply numeric_of_int. done.
Qed.

(** The loop of step 2 on an in-progress name of another file. *)
Lemma regular_safe_in_progress current_hostname current_file h p t :
  plain_host h → in_progress h p t ≠ current_file →
  regular_safe current_hostname current_file (in_progress h p t)
  = bool_decide (h ≠ current_hostname).
Proof.
  intros Hh Hcur. unfold regular_safe.
  rewrite bool_decide_eq_false_2 by done.
  rewrite in_progress_unmarked by done.
  destruct Hh as [Hsep _]. by rewrite split_in_progress.
Qed.

Lemma endswith_in_progress h p t :
  endswith (lit "_completed.db") (drop (length (lit "ipython_history_")) (in_progress h p t))
  = false.
Proof.
  unfold endswith, in_progress. rewrite drop_app_length.
  rewrite !reverse_app.
  pose proof (numeric_of_int t) as [Ht Hne].
  destruct (reverse (of_int t)) as [|c r] eqn:E.
  { apply (f_equal reverse) in E. rewrite reverse_involutive in E. done. }
  assert (c ∈ of_int t) as Hc.
  { apply elem_of_reverse. rewrite E. by left. }
  rewrite Forall_forall in Ht. specialize (Ht c Hc).
  change (reverse (lit ".db")) with (lit "bd.").
  change (reverse (lit "_completed.db")) with (lit "bd.detelpmoc_").
  simpl. rewrite bool_decide_eq_false_2; [done|].
  intros <-. destruct Ht as [Hd|?]; [|done]. by apply (not_digit "d"%char).
Qed.

Lemma matches_completed_pattern h t :
  PyPath.matches (PyPath.Glob (lit "ipython_history_") (lit "_completed.db")) (completed h t)
  = true.
Proof.
  unfold PyPath.matches, completed. simpl PyPath.before. simpl PyPath.after.
  rewrite startswith_app, drop_app_length.
  replace (h ++ lit "_" ++ of_int t ++ lit "_completed.db")
    with ((h ++ lit "_" ++ of_int t) ++ lit "_completed.db") by (by rewrite <- !app_assoc).
  by rewrite endswith_app.
Qed.

Lemma matches_db_pattern h p t :
  PyPath.matches (PyPath.Glob (lit "ipython_history_") (lit ".db")) (in_progress h p t) = true.
Proof.
  unfold PyPath.matches, in_progress. simpl PyPath.before. simpl PyPath.after.
  rewrite startswith_app, drop_app_length.
  replace (h ++ lit "_" ++ of_int p ++ lit "_" ++ of_int t ++ lit ".db")
    with ((h ++ lit "_" ++ of_int p ++ lit "_" ++ of_int t) ++ lit ".db")
    by (by rewrite <- !app_assoc).
  by rewrite endswith_app.
Qed.

Lemma elem_of_safe_files current_hostname sync_dir current_file f :
  f ∈ safe_files current_hostname sync_dir current_file
  ↔ f ∈ sync_dir
    ∧ (PyPath.matches (PyPath.Glob (lit "ipython_history_") (lit "_completed.db")) f = true
       ∨ PyPath.matches (PyPath.Glob (lit "ipython_history_") (lit ".db")) f = true
         ∧ regular_safe current_hostname current_file f = true).
Proof.
  unfold safe_files, PyPath.glob.
  rewrite elem_of_app, !list_elem_of_filter, !Is_true_true. tauto.
Qed.

Lemma elem_of_get_safe_files current_hostname sync_dir current_file l f :
  get_safe_files_for_merge current_hostname sync_dir current_file = inr l →
  f ∈ l ↔ f ∈ safe_files current_hostname sync_dir current_file.
Proof.
  unfold get_safe_files_for_merge, sort_reverse.
  destruct (_ && _); [done|]. intros [= <-].
  apply SortFacts.elem_of_stable_sort.
Qed.

(** The safety rules on the names of the grammar, when the catalog
    returns: a completed file of any host is selected, an in-progress
    file of another host is selected, an in-progress file of the local
    host is not, the file in use among them. *)
Lemma safety_rules current_hostname sync_dir current_file l :
  get_safe_files_for_merge current_hostname sync_dir current_file = inr l →
  (∀ h t, completed h t ∈ sync_dir → completed h t ∈ l)
  ∧ (∀ h p t, plain_host h → h ≠ current_hostname →
       in_progress h p t ∈ sync_dir → in_progress h p t ≠ current_file →
       in_progress h p t ∈ l)
  ∧ (∀ p t, plain_host current_hostname → in_progress current_hostname p t ∉ l).
Proof.
  intros Hl. repeat split.
  - intros h t Hin. rewrite (elem_of_get_safe_files _ _ _ _ _ Hl), elem_of_safe_files.
    split; [done|]. left. apply matches_completed_pattern.
  - intros h p t Hh Hne Hin Hcur.
    rewrite (elem_of_get_safe_files _ _ _ _ _ Hl), elem_of_safe_files.
    split; [done|]. right. split; [apply matches_db_pattern|].
    rewrite regular_safe_in_progress by done. by apply bool_decide_eq_true_2.
  - intros p t Hh. rewrite (elem_of_get_safe_files _ _ _ _ _ Hl), elem_of_safe_files.
    intros [_ [Hm|[_ Hs]]].
    + unfold PyPath.matches in Hm. simpl PyPath.before in Hm. simpl PyPath.after in Hm.
      rewrite endswith_in_progress, andb_false_r in Hm. done.
    + destruct (decide (in_progress current_hostname p t = current_file)) as [Heq|Hne].
      * unfold regular_safe in Hs. by rewrite bool_decide_eq_true_2 in Hs.
      * rewrite regular_safe_in_progress in Hs by done.
        by rewrite bool_decide_eq_false_2 in Hs by (by intros ?).
Qed.

End CatalogFacts.

(** ** The catalog on concrete directories *)

(** The safety classification example of the specification. *)
Example safety_classification :
  Catalog.get_safe_files_for_merge (lit "hostA")
    [lit "ipython_history_hostA_100_1000.db";
     lit "ipython_history_hostA_1000_completed.db";
     lit "ipython_history_hostB_200_1000.db"]
    (lit "ipython_history_hostA_999_2000.db")
  = inr [lit "ipython_history_hostA_1000_completed.db";
         lit "ipython_history_hostB_200_1000.db"].
Proof. by vm_compute. Qed.

(** C1 fails on a peer whose host name begins with [completed]: its
    in-progress file is not completed and belongs to another host, yet
    the test ["_completed" in file_path.name] skips it as "already
    included above" although the first pattern never matched it. *)
Theorem C1_peer_named_completed_is_dropped :
  let peer := Grammar.in_progress (lit "completedbox") 200 1000 in
  peer = lit "ipython_history_completedbox_200_1000.db"
  ∧ PyPath.matches (PyPath.Glob (lit "ipython_history_") (lit "_completed.db")) peer = false
  ∧ Catalog.get_safe_files_for_merge (lit "hostA") [peer]
      (lit "ipython_history_hostA_999_2000.db") = inr [].
Proof. by vm_compute. Qed.

(** C6 fails on a name with fewer than four fields: [sort_key] leaves
    its [try] block without returning, the key is [None], and the sort
    raises [TypeError] as soon as the list holds a second file. *)
Theorem C6_short_name_raises :
  let short := lit "ipython_history_1000_completed.db" in
  let peer := lit "ipython_history_hostB_200_1000.db" in
  Catalog.sort_key (lit "hostA") short = None
  ∧ Catalog.get_safe_files_for_merge (lit "hostA") [short; peer]
      (lit "ipython_history_hostA_999_2000.db") = inl Catalog.TypeError.
Proof. by vm_compute. Qed.

(** ** History merger: the loop body against its effect *)

Module MergerFacts.
Import Merger.

Lemma insert_history_all id cmds st :
  NoDup (map line cmds) →
  Forall (λ r, h_session r ≠ id) (t_history (target st)) →
  for_each (λ c, insert_history (renumber_history id c)) cmds st
  = (inr tt, set_target (λ t, Target (t_sessions t)
                                (t_history t ++ map (renumber_history id) cmds)
                                (t_output_history t)) st).
Proof.
  intros Hnd Hst.
  assert (∀ c, c ∈ cmds →
            (id, line c) ∉ map (λ x, (h_session x, line x)) (t_history (target st))) as Hfree.
  { intros c _ (r & [= Hr _] & Hin)%list_elem_of_fmap.
    rewrite Forall_forall in Hst. by apply (Hst r Hin). }
  clear Hst. revert st Hfree. induction cmds as [|c cmds IH]; intros st Hfree.
  - simpl. unfold mret, M_ret, set_target. destruct st as [[] ? ? ? ?]; simpl.
    by rewrite app_nil_r.
  - apply NoDup_cons in Hnd as [Hc Hnd].
    change (for_each ?f (c :: cmds)) with (f c ;; for_each f cmds).
    unfold mbind, M_bind. unfold insert_history at 1. simpl h_session. simpl line.
    rewrite bool_decide_eq_false_2 by (apply Hfree; by left).
    rewrite IH; [| done |].
    + f_equal. unfold set_target. destruct st as [[] ? ? ? ?]; simpl.
      by rewrite <- app_assoc.
    + intros c' Hc'. unfold set_target. simpl. rewrite map_app.
      intros [Hin|Hin]%elem_of_app; [by apply (Hfree c'); [right|]|].
      apply list_elem_of_singleton in Hin. injection Hin as Hl.
      apply Hc. rewrite <- Hl. by apply list_elem_of_fmap_2.
Qed.

Lemma insert_output_all id outs st :
  NoDup (map o_line outs) →
  Forall (λ r, o_session r ≠ id) (t_output_history (target st)) →
  for_each (λ o, insert_output (renumber_output id o)) outs st
  = (inr tt, set_target (λ t, Target (t_sessions t) (t_history t)
                                (t_output_history t ++ map (renumber_output id) outs)) st).
Proof.
  intros Hnd Hst.
  assert (∀ c, c ∈ outs →
            (id, o_line c) ∉ map (λ x, (o_session x, o_line x))
                               (t_output_history (target st))) as Hfree.
  { intros c _ (r & [= Hr _] & Hin)%list_elem_of_fmap.
    rewrite Forall_forall in Hst. by apply (Hst r Hin). }
  clear Hst. revert st Hfree. induction outs as [|c outs IH]; intros st Hfree.
  - simpl. unfold mret, M_ret, set_target. destruct st as [[] ? ? ? ?]; simpl.
    by rewrite app_nil_r.
  - apply NoDup_cons in Hnd as [Hc Hnd].
    change (for_each ?f (c :: outs)) with (f c ;; for_each f outs).
    unfold mbind, M_bind. unfold insert_output at 1. simpl o_session. simpl o_line.
    rewrite bool_decide_eq_false_2 by (apply Hfree; by left).
    rewrite IH; [| done |].
    + f_equal. unfold set_target. destruct st as [[] ? ? ? ?]; simpl.
      by rewrite <- app_assoc.
    + intros c' Hc'. unfold set_target. simpl. rewrite map_app.
      intros [Hin|Hin]%elem_of_app; [by apply (Hfree c'); [right|]|].
      apply list_elem_of_singleton in Hin. injection Hin as Hl.
      apply Hc. rewrite <- Hl. by apply list_elem_of_fmap_2.
Qed.

Lemma select_history_lines h s :
  NoDup (map (λ r, (h_session r, line r)) h) → NoDup (map line (select_history h s)).
Proof.
  intros Hnd. unfold select_history.
  rewrite (SortFacts.stable_sort_perm (λ a b, line a <? line b)).
  apply (NoDup_fmap_1 (pair s)).
  rewrite <- list_fmap_compose.
  eapply sublist_NoDup; [exact Hnd|].
  erewrite list_fmap_ext; [apply fmap_sublist, (sublist_filter (λ r, h_session r = s))|].
  intros i r [Hr _]%list_elem_of_lookup_2%list_elem_of_filter. simpl. by rewrite Hr.
Qed.

Lemma select_output_lines o s :
  NoDup (map (λ r, (o_session r, o_line r)) o) → NoDup (map o_line (select_output o s)).
Proof.
  intros Hnd. unfold select_output.
  rewrite (SortFacts.stable_sort_perm (λ a b, o_line a <? o_line b)).
  apply (NoDup_fmap_1 (pair s)).
  rewrite <- list_fmap_compose.
  eapply sublist_NoDup; [exact Hnd|].
  erewrite list_fmap_ext; [apply fmap_sublist, (sublist_filter (λ r, o_session r = s))|].
  intros i r [Hr _]%list_elem_of_lookup_2%list_elem_of_filter. simpl. by rewrite Hr.
Qed.

Lemma bounded_write st x : bounded st → bounded (write st x).
Proof.
  intros (Hs & Hh & Ho). unfold bounded, write. simpl.
  rewrite !Forall_app, !Forall_fmap, Forall_singleton. simpl.
  repeat split; try (eapply Forall_impl; [eassumption|]; simpl; lia);
    try lia; apply Forall_true; simpl; lia.
Qed.

Lemma bounded_accept st x : bounded st → bounded (accept st x).
Proof. unfold accept. case_bool_decide; [done|]. apply bounded_write. Qed.

(** The outputs that the loop body fetches for a session. *)
Lemma merge_session_accept f db row st h :
  history db = Some h → keys_unique (Sqlite db) → bounded st →
  merge_session f db (bool_decide (is_Some (output_history db))) row st
  = (inr tt, accept st (f, (row, select_history h (session row),
                             match output_history db with
                             | Some o => select_output o (session row)
                             | None => []
                             end))).
Proof.
  intros Hh [Hkh Hko] (Hbs & Hbh & Hbo).
  unfold merge_session. rewrite Hh. change (table (Some h)) with (mret h : M _).
  set (commands := select_history h (session row)).
  set (outputs := match output_history db with
                  | Some o => select_output o (session row)
                  | None => []
                  end).
  assert (NoDup (map line commands)) as Hlc.
  { apply select_history_lines. by rewrite Hh in Hkh. }
  assert (NoDup (map o_line outputs)) as Hlo.
  { unfold outputs. destruct (output_history db) as [o|] eqn:Eo; [|constructor].
    by apply select_output_lines, Hko. }
  assert ((if bool_decide (is_Some (output_history db))
           then o ← table (output_history db); mret (select_output o (session row))
           else mret []) = (mret outputs : M _)) as ->.
  { unfold outputs. destruct (output_history db) as [o|]; [|done].
    by rewrite bool_decide_eq_true_2 by eauto. }
  unfold mbind, M_bind, mret, M_ret, get. unfold accept. simpl.
  fold commands. unfold item_signature. simpl.
  case_bool_decide as Hseen; [done|].
  unfold modify at 1. unfold insert_session at 1. simpl.
  rewrite bool_decide_eq_false_2.
  2:{ intros (r & Hr & Hin)%list_elem_of_fmap. rewrite Forall_forall in Hbs.
      specialize (Hbs r Hin). simpl in Hbs. lia. }
  unfold set_target at 1. simpl.
  rewrite (insert_history_all (next_session_id st) commands); [|done|].
  2:{ simpl. eapply Forall_impl; [exact Hbh|]. simpl. lia. }
  rewrite (insert_output_all (next_session_id st) outputs); [|done|].
  2:{ simpl. eapply Forall_impl; [exact Hbo|]. simpl. lia. }
  unfold modify, set_target, write. simpl. done.
Qed.

Lemma for_each_sessions f db h rows st :
  history db = Some h → keys_unique (Sqlite db) → bounded st →
  for_each (merge_session f db (bool_decide (is_Some (output_history db)))) rows st
  = (inr tt, foldl accept st
               (map (λ r, (f, (r, select_history h (session r),
                               match output_history db with
                               | Some o => select_output o (session r)
                               | None => []
                               end))) rows)).
Proof.
  intros Hh Hk. revert st. induction rows as [|r rows IH]; intros st Hb; [done|].
  change (for_each ?g (r :: rows)) with (g r ;; for_each g rows).
  unfold mbind, M_bind. rewrite (merge_session_accept f db r st h) by done.
  rewrite IH by (by apply bounded_accept). done.
Qed.

(** The body of the [try] either raises before it has written anything
    or accepts the sessions of the source one after the other. *)
Lemma read_source_spec f c st :
  keys_unique c → bounded st →
  read_source f c st
  = match read_store c with
    | Some l => (inr tt, foldl accept st (map (pair f) l))
    | None => (inl (read_error c), st)
    end.
Proof.
  intros Hk Hb. destruct c as [|db]; [done|]. unfold read_source, read_store.
  destruct (sessions db) as [s|]; [|done]. simpl.
  unfold mbind at 1, M_bind, mret, M_ret. simpl.
  destruct (history db) as [h|] eqn:Hh.
  - rewrite (for_each_sessions f db h) by done.
    destruct (select_sessions s); [done|]. simpl.
    by rewrite <- !list_fmap_compose.
  - destruct (select_sessions s) as [|r rows]; [done|]. simpl.
    unfold mbind, M_bind, merge_session. rewrite Hh. done.
Qed.

(** *** The loop over the sources *)

Lemma noted_noted v a b st : noted v b (noted v a st) = noted v (a ++ b) st.
Proof. unfold noted. destruct v; [|done]. simpl. by rewrite app_assoc. Qed.

Lemma accept_noted v ms st x : accept (noted v ms st) x = noted v ms (accept st x).
Proof.
  unfold noted. destruct v; [|done]. unfold accept. simpl.
  by case_bool_decide.
Qed.

Lemma foldl_accept_noted v ms l st :
  foldl accept (noted v ms st) l = noted v ms (foldl accept st l).
Proof.
  revert st. induction l as [|x l IH]; intros st; [done|].
  simpl. by rewrite accept_noted, IH.
Qed.

Lemma bounded_foldl_accept l st : bounded st → bounded (foldl accept st l).
Proof.
  revert st. induction l as [|x l IH]; intros st Hb; [done|].
  simpl. by apply IH, bounded_accept.
Qed.

Lemma bounded_noted v ms st : bounded st → bounded (noted v ms st).
Proof. unfold noted. by destruct v. Qed.

Section Loop.
Variable disk : str → option file.
Variable verbose : bool.

Lemma process_source_spec st f :
  keys_unique (connect disk f) → bounded st →
  process_source disk verbose st f
  = match read_store (connect disk f) with
    | Some l => foldl accept st (map (pair f) l)
    | None => noted verbose [Warning f (read_error (connect disk f))] st
    end.
Proof.
  intros Hk Hb. unfold process_source. rewrite read_source_spec by done.
  destruct (read_store (connect disk f)); [done|].
  unfold print, noted. done.
Qed.

Lemma loop_spec files st :
  (∀ f, f ∈ files → keys_unique (connect disk f)) → bounded st →
  foldl (process_source disk verbose) st files
  = noted verbose (warnings_of disk files) (foldl accept st (items_of disk files)).
Proof.
  revert st. induction files as [|f files IH]; intros st Hk Hb.
  { unfold noted, warnings_of. simpl. destruct verbose; [|done].
    destruct st; simpl. by rewrite app_nil_r. }
  simpl foldl. rewrite process_source_spec by (done || apply Hk; by left).
  unfold items_of, warnings_of. simpl flat_map. rewrite filter_cons.
  fold (items_of disk files).
  destruct (decide (¬ readable disk f)) as [Hn|Hy]; unfold readable in *;
    destruct (read_store (connect disk f)) as [l|] eqn:E.
  - exfalso. apply Hn. eauto.
  - rewrite IH; [| intros; apply Hk; by right | by apply bounded_noted].
    rewrite foldl_accept_noted, noted_noted. done.
  - rewrite IH; [| intros; apply Hk; by right | by apply bounded_foldl_accept].
    simpl default. by rewrite foldl_app.
  - exfalso. apply Hy. by intros [].
Qed.

Lemma elem_of_files_with_times source_files t f :
  (t, f) ∈ files_with_times disk source_files
  ↔ f ∈ source_files ∧ source_timestamp disk f = Some t.
Proof.
  unfold files_with_times.
  rewrite (SortFacts.elem_of_stable_sort (λ a b, a.1 <? b.1)), list_elem_of_omap.
  split.
  - intros (g & Hg & Hf). destruct (source_timestamp disk g) eqn:E; [|done].
    injection Hf as <- <-. done.
  - intros [Hf Ht]. exists f. split; [done|]. by rewrite Ht.
Qed.

Lemma bounded_initial : bounded (initial fresh).
Proof. by repeat split. Qed.

(** The whole run, for a fresh target and sources that keep the keys of
    the schema: the sessions read are accepted in order, and the
    console gets the warnings and the summary. *)
Lemma merge_histories_spec source_files :
  (∀ f, f ∈ source_files → keys_unique (connect disk f)) →
  let st := foldl accept (initial fresh) (sessions_read disk source_files) in
  merge_histories disk verbose source_files fresh
  = noted verbose
      (warnings disk source_files
       ++ [Merged (length (files_with_times disk source_files)) (next_session_id st - 1)])
      st.
Proof.
  intros Hk st. unfold merge_histories.
  rewrite loop_spec; [| | apply bounded_initial].
  - unfold print. fold (sessions_read disk source_files). fold st.
    fold (warnings disk source_files).
    replace (next_session_id (noted verbose (warnings disk source_files) st))
      with (next_session_id st) by (unfold noted; by destruct verbose).
    unfold noted. destruct verbose; [|done]. simpl. by rewrite app_assoc.
  - intros f [[t f'] [-> Hf]]%list_elem_of_fmap. apply Hk.
    by apply elem_of_files_with_times in Hf as [? _].
Qed.
End Loop.

(** *** Accepting is writing the first copies, numbered in order *)

Lemma foldl_accept_first_copies l st :
  foldl accept st l = foldl write st (first_copies (seen_sessions st) l).
Proof.
  revert st. induction l as [|x l IH]; intros st; [done|].
  simpl. unfold accept at 2. case_bool_decide; [done|].
  simpl. by rewrite IH.
Qed.

Lemma foldl_write l st :
  foldl write st l
  = State (Target (t_sessions (target st)
                   ++ map session_written (numbered (next_session_id st) l))
                  (t_history (target st)
                   ++ flat_map history_written (numbered (next_session_id st) l))
                  (t_output_history (target st)
                   ++ flat_map output_written (numbered (next_session_id st) l)))
          (list_to_set (map (λ x, item_signature x.2) l) ∪ seen_sessions st)
          (next_session_id st + Z.of_nat (length l))
          (stdout st)
          (accepted st ++ map trace_entry (numbered (next_session_id st) l)).
Proof.
  revert st. induction l as [|x l IH]; intros st.
  - destruct st as [[] ? ? ? ?]. simpl. rewrite !app_nil_r, Z.add_0_r.
    by rewrite (left_id_L ∅ (∪)).
  - simpl foldl. rewrite IH. simpl. rewrite <- !app_assoc.
    assert (∀ a b c d e a' b' c' d' e',
              a = a' → b = b' → c = c' → d = d' → e = e' →
              State a b c d e = State a' b' c' d' e') as Heq by (by intros; subst).
    apply Heq; [done | set_solver | lia | done | done].
Qed.

Lemma numbered_fst {A} n (l : list A) : (numbered n l).*1 = seqZ n (Z.of_nat (length l)).
Proof.
  revert n. induction l as [|x l IH]; intros n; [done|].
  simpl. rewrite IH, (seqZ_cons n) by lia. do 2 f_equal; lia.
Qed.

Lemma numbered_snd {A} n (l : list A) : (numbered n l).*2 = l.
Proof. revert n. induction l as [|x l IH]; intros n; simpl; [done|]. by rewrite IH. Qed.

Lemma elem_of_numbered {A} n (l : list A) i x :
  (i, x) ∈ numbered n l → n ≤ i < n + Z.of_nat (length l) ∧ x ∈ l.
Proof.
  intros Hin. split.
  - apply (list_elem_of_fmap_2 fst) in Hin. rewrite numbered_fst in Hin.
    apply elem_of_seqZ in Hin. simpl in Hin. lia.
  - apply (list_elem_of_fmap_2 snd) in Hin. by rewrite numbered_snd in Hin.
Qed.

Lemma numbered_NoDup {A} n (l : list A) : NoDup (numbered n l).*1.
Proof. rewrite numbered_fst. apply NoDup_seqZ. Qed.

Lemma numbered_elem_of {A} n (l : list A) x :
  x ∈ l → ∃ i, (i, x) ∈ numbered n l.
Proof.
  rewrite <- (numbered_snd n l) at 1.
  intros ([i y] & -> & Hin)%list_elem_of_fmap. eauto.
Qed.

(** The numbers follow the order of the list. *)
Lemma numbered_sorted {A} (R : A → A → Prop) n (l : list A) :
  StronglySorted R l →
  StronglySorted (λ p q, p.1 < q.1 ∧ R p.2 q.2) (numbered n l).
Proof.
  intros Hl. revert n. induction Hl as [|x l Hl IH Hx]; intros n; simpl; [constructor|].
  constructor; [apply IH|]. apply Forall_forall. intros [i y] Hin.
  apply elem_of_numbered in Hin as [Hi Hy]. simpl. split; [lia|].
  rewrite Forall_forall in Hx. by apply Hx.
Qed.

(** *** The first copies *)

Lemma first_copies_sublist S l : first_copies S l `sublist_of` l.
Proof.
  revert S. induction l as [|x l IH]; intros S; simpl; [done|].
  case_bool_decide; [by apply sublist_cons|by apply sublist_skip].
Qed.

Lemma elem_of_first_copies_sig S l σ :
  σ ∈ map (λ x, item_signature x.2) (first_copies S l)
  ↔ σ ∈ map (λ x, item_signature x.2) l ∧ σ ∉ S.
Proof.
  revert S. induction l as [|x l IH]; intros S; simpl.
  - rewrite elem_of_nil. tauto.
  - case_bool_decide as Hx; simpl; rewrite ?elem_of_cons, IH.
    + split; [tauto|]. intros [[->|?] ?]; tauto.
    + rewrite elem_of_union, elem_of_singleton.
      destruct (decide (σ = item_signature x.2)) as [->|Hne]; tauto.
Qed.

Lemma first_copies_NoDup S l : NoDup (map (λ x, item_signature x.2) (first_copies S l)).
Proof.
  revert S. induction l as [|x l IH]; intros S; simpl; [constructor|].
  case_bool_decide; [done|]. simpl. constructor; [|done].
  rewrite elem_of_first_copies_sig, elem_of_union, elem_of_singleton. tauto.
Qed.

Lemma length_first_copies S l :
  length (first_copies S l)
  = size (list_to_set (map (λ x, item_signature x.2) l) ∖ S : gset signature).
Proof.
  revert S. induction l as [|x l IH]; intros S.
  - symmetry. apply size_empty_iff. set_solver.
  - cbn [first_copies map list_to_set]. case_bool_decide as Hx.
    + rewrite IH. f_equal. set_solver.
    + cbn [length]. rewrite IH.
      generalize (list_to_set (map (λ x, item_signature x.2) l) : gset signature).
      generalize dependent (item_signature x.2). intros σ Hx T.
      replace (({[σ]} ∪ T) ∖ S) with ({[σ]} ∪ T ∖ ({[σ]} ∪ S)).
      * rewrite (size_union {[σ]} (T ∖ ({[σ]} ∪ S))); [by rewrite size_singleton|].
        intros τ ->%elem_of_singleton [_ Hτ]%elem_of_difference.
        apply Hτ, elem_of_union. left. by apply elem_of_singleton.
      * apply set_eq. intros τ.
        rewrite elem_of_union, !elem_of_difference, !elem_of_union, elem_of_singleton.
        destruct (decide (τ = σ)) as [->|]; tauto.
Qed.

(** The copy that is kept is the first one in the list. *)
Lemma first_copies_head S l σ :
  σ ∉ S →
  head (filter (λ x, item_signature x.2 = σ) (first_copies S l))
  = head (filter (λ x, item_signature x.2 = σ) l).
Proof.
  revert S. induction l as [|x l IH]; intros S Hσ; simpl; [done|].
  case_bool_decide as Hx.
  - rewrite (filter_cons_False _ x) by set_solver. by apply IH.
  - rewrite !filter_cons. destruct (decide (item_signature x.2 = σ)); [done|].
    apply IH. set_solver.
Qed.

Lemma filter_key_elem {A K} `{EqDecision K} (g : A → K) (l : list A) x :
  NoDup (map g l) → x ∈ l → filter (λ y, g y = g x) l = [x].
Proof.
  induction l as [|y l IH]; intros Hnd Hx; [by apply elem_of_nil in Hx|].
  apply NoDup_cons in Hnd as [Hy Hnd]. rewrite filter_cons.
  apply elem_of_cons in Hx as [->|Hx].
  - rewrite decide_True by done. f_equal.
    destruct (filter (λ z, g z = g y) l) as [|z k] eqn:E; [done|].
    exfalso. assert (z ∈ filter (λ z, g z = g y) l) as Hz by (rewrite E; by left).
    apply list_elem_of_filter in Hz as [Hz Hin]. apply Hy. rewrite <- Hz.
    by apply list_elem_of_fmap_2.
  - rewrite decide_False; [by apply IH|].
    intros Hg. apply Hy. rewrite Hg. by apply list_elem_of_fmap_2.
Qed.

Lemma sorted_sublist {A} (R : A → A → Prop) l1 l2 :
  l1 `sublist_of` l2 → StronglySorted R l2 → StronglySorted R l1.
Proof.
  induction 1 as [|x l1 l2 Hl IH|x l1 l2 Hl IH]; intros Hs; [done| |].
  - apply StronglySorted_inv in Hs as [Hs Hx]. constructor; [by apply IH|].
    rewrite Forall_forall in Hx |- *. intros y Hy. apply Hx.
    by eapply elem_of_sublist.
  - apply StronglySorted_inv in Hs as [Hs _]. by apply IH.
Qed.

(** *** The rows of one session in the target *)

Lemma filter_history_written i (N : list (Z * (str * item))) :
  filter (λ r, h_session r = i) (flat_map history_written N)
  = flat_map history_written (filter (λ p, p.1 = i) N).
Proof.
  induction N as [|p N IH]; [done|].
  simpl flat_map. rewrite filter_app, IH, filter_cons.
  destruct (decide (p.1 = i)) as [Hp|Hp]; simpl; f_equal.
  - unfold history_written. induction (p.2.2.1.2) as [|c cs IHc]; [done|].
    simpl. rewrite filter_cons, decide_True by done. by rewrite IHc.
  - unfold history_written. induction (p.2.2.1.2) as [|c cs IHc]; [done|].
    simpl. rewrite filter_cons, decide_False by done. by rewrite IHc.
Qed.

Lemma filter_output_written i (N : list (Z * (str * item))) :
  filter (λ r, o_session r = i) (flat_map output_written N)
  = flat_map output_written (filter (λ p, p.1 = i) N).
Proof.
  induction N as [|p N IH]; [done|].
  simpl flat_map. rewrite filter_app, IH, filter_cons.
  destruct (decide (p.1 = i)) as [Hp|Hp]; simpl; f_equal.
  - unfold output_written. induction (p.2.2.2) as [|c cs IHc]; [done|].
    simpl. rewrite filter_cons, decide_True by done. by rewrite IHc.
  - unfold output_written. induction (p.2.2.2) as [|c cs IHc]; [done|].
    simpl. rewrite filter_cons, decide_False by done. by rewrite IHc.
Qed.

Section Written.
Variables (n : Z) (K : list (str * item)) (i : Z) (x : str * item).
Hypothesis Hin : (i, x) ∈ numbered n K.
Hypothesis Hsorted : sorted_item x.2.

Lemma filter_numbered : filter (λ p : Z * (str * item), p.1 = i) (numbered n K) = [(i, x)].
Proof. apply (filter_key_elem fst _ (i, x)); [apply numbered_NoDup|done]. Qed.

(** The queries on the target give back the rows of the session. *)
Lemma select_history_written :
  select_history (flat_map history_written (numbered n K)) i = history_written (i, x).
Proof.
  unfold select_history. rewrite filter_history_written, filter_numbered.
  simpl. rewrite app_nil_r. apply (SortFacts.stable_sort_id line).
  unfold history_written. simpl.
  eapply (StronglySorted_fmap _ (λ a b, line a ≤ line b)); [|apply Hsorted]. done.
Qed.

Lemma select_output_written :
  select_output (flat_map output_written (numbered n K)) i = output_written (i, x).
Proof.
  unfold select_output. rewrite filter_output_written, filter_numbered.
  simpl. rewrite app_nil_r. apply (SortFacts.stable_sort_id o_line).
  unfold output_written. simpl.
  eapply (StronglySorted_fmap _ (λ a b, o_line a ≤ o_line b)); [|apply Hsorted]. done.
Qed.

Lemma target_signature_written ts :
  target_signature (Target ts (flat_map history_written (numbered n K))
                              (flat_map output_written (numbered n K))) i
  = item_signature x.2.
Proof.
  unfold target_signature. simpl.
  rewrite select_history_written, select_output_written.
  unfold item_signature, session_signature, history_written, output_written. simpl.
  by rewrite <- !list_fmap_compose.
Qed.
End Written.

(** *** The sessions that a run reads *)

Section Run.
Variable disk : str → option file.

Lemma read_store_sorted c l it : read_store c = Some l → it ∈ l → sorted_item it.
Proof.
  destruct c as [|db]; [done|]. unfold read_store.
  destruct (sessions db) as [s|]; [|done]. simpl.
  destruct (select_sessions s) as [|r rows]; [by intros [= <-] ?%elem_of_nil|].
  destruct (history db) as [h|]; [|done]. simpl. intros [= <-] Hit.
  assert (∃ r', it = (r', select_history h (session r'),
                      match output_history db with
                      | Some o => select_output o (session r')
                      | None => []
                      end)) as (r' & ->).
  { apply elem_of_cons in Hit as [->|(r' & -> & _)%list_elem_of_fmap]; eauto. }
  split; simpl.
  - apply (SortFacts.stable_sort_sorted line).
  - destruct (output_history db); [|constructor].
    apply (SortFacts.stable_sort_sorted o_line).
Qed.

Lemma elem_of_items_of files f it :
  (f, it) ∈ items_of disk files
  ↔ f ∈ files ∧ ∃ l, read_store (connect disk f) = Some l ∧ it ∈ l.
Proof.
  unfold items_of. rewrite list_elem_of_In, in_flat_map. split.
  - intros (g & Hg%list_elem_of_In & Hin%list_elem_of_In).
    apply list_elem_of_fmap in Hin as (it' & [= -> ->] & Hit).
    split; [done|]. destruct (read_store (connect disk g)) as [l|]; [eauto|].
    by apply elem_of_nil in Hit.
  - intros (Hf & l & Hl & Hit). exists f. rewrite <- !list_elem_of_In.
    split; [done|]. rewrite Hl. by apply list_elem_of_fmap_2.
Qed.

(** A source that is read exists, so it has a sort timestamp. *)
Lemma readable_timestamp f :
  readable disk f → is_Some (source_timestamp disk f).
Proof.
  unfold readable, connect, source_timestamp.
  destruct (Grammar.file_timestamp f); [eauto|].
  destruct (disk f); [by eauto|]. by intros [].
Qed.

Lemma elem_of_files source_files f :
  f ∈ (files_with_times disk source_files).*2
  ↔ f ∈ source_files ∧ is_Some (source_timestamp disk f).
Proof.
  rewrite list_elem_of_fmap. split.
  - intros ([t g] & -> & Hin). apply elem_of_files_with_times in Hin as [? Ht].
    simpl. split; [done|]. by rewrite Ht.
  - intros [Hf [t Ht]]. exists (t, f). split; [done|].
    by apply elem_of_files_with_times.
Qed.

Lemma elem_of_sessions_read source_files f it :
  (f, it) ∈ sessions_read disk source_files
  ↔ f ∈ source_files ∧ ∃ l, read_store (connect disk f) = Some l ∧ it ∈ l.
Proof.
  unfold sessions_read. rewrite elem_of_items_of, elem_of_files. split.
  - intros [[? _] ?]. done.
  - intros [Hf (l & Hl & Hit)]. repeat split; eauto.
    apply readable_timestamp. unfold readable. by rewrite Hl.
Qed.

Lemma sessions_read_sorted source_files x :
  x ∈ sessions_read disk source_files → sorted_item x.2.
Proof.
  destruct x as [f it]. intros [_ (l & Hl & Hit)]%elem_of_sessions_read.
  by eapply read_store_sorted.
Qed.

(** The state in which a run ends, for a fresh target and sources that
    keep the keys of the schema. *)
Lemma merge_result verbose source_files :
  (∀ f, f ∈ source_files → keys_unique (connect disk f)) →
  let K := first_copies ∅ (sessions_read disk source_files) in
  let st := merge_histories disk verbose source_files fresh in
  target st = Target (map session_written (numbered 1 K))
                     (flat_map history_written (numbered 1 K))
                     (flat_map output_written (numbered 1 K))
  ∧ next_session_id st = 1 + Z.of_nat (length K)
  ∧ accepted st = map trace_entry (numbered 1 K)
  ∧ stdout st = if verbose
                then warnings disk source_files
                     ++ [Merged (length (files_with_times disk source_files))
                           (Z.of_nat (length K))]
                else [].
Proof.
  intros Hk K st. unfold st. rewrite merge_histories_spec by done.
  rewrite foldl_accept_first_copies, foldl_write. simpl. fold K.
  unfold noted. destruct verbose; simpl; repeat split; try done.
  do 3 f_equal. lia.
Qed.

(** The sessions of the final target, one per first copy. *)
Lemma kept_elem_of source_files x :
  x ∈ first_copies ∅ (sessions_read disk source_files) →
  x ∈ sessions_read disk source_files ∧ sorted_item x.2.
Proof.
  intros Hx. assert (x ∈ sessions_read disk source_files) as Hin.
  { eapply elem_of_sublist; [exact Hx|apply first_copies_sublist]. }
  split; [done|]. by eapply sessions_read_sorted.
Qed.
End Run.

Lemma filter_fmap_elem {A B} (f : A → B) (P : B → Prop) (Q : A → Prop)
    `{!∀ y, Decision (P y), !∀ x, Decision (Q x)} (l : list A) :
  (∀ x, x ∈ l → P (f x) ↔ Q x) → filter P (map f l) = map f (filter Q l).
Proof.
  induction l as [|x l IH]; intros Hl; [done|].
  simpl map. rewrite !filter_cons.
  rewrite IH by (intros; apply Hl; by right).
  specialize (Hl x ltac:(by left)).
  destruct (decide (P (f x))), (decide (Q x)); tauto || done.
Qed.

Section Result.
Variable disk : str → option file.
Variable verbose : bool.
Variable source_files : list str.
Hypothesis Hkeys : Forall (λ f, keys_unique (connect disk f)) source_files.

Lemma keys_unique_elem f : f ∈ source_files → keys_unique (connect disk f).
Proof. rewrite Forall_forall in Hkeys. apply Hkeys. Qed.

(** The kept copy of a signature is the one session of the target that
    has this signature. *)
Lemma target_sessions_with_signature x :
  x ∈ first_copies ∅ (sessions_read disk source_files) →
  let T := target (merge_histories disk verbose source_files fresh) in
  ∃ i, (i, x) ∈ numbered 1 (first_copies ∅ (sessions_read disk source_files))
       ∧ filter (λ r, target_signature T (session r) = item_signature x.2) (t_sessions T)
         = [renumber_session i x.2.1.1].
Proof.
  intros Hx T.
  destruct (merge_result disk verbose source_files keys_unique_elem) as (HT & _).
  fold T in HT. set (K := first_copies ∅ (sessions_read disk source_files)) in *.
  destruct (numbered_elem_of 1 K x Hx) as [i Hi]. exists i. split; [done|].
  rewrite HT. simpl t_sessions.
  rewrite (filter_fmap_elem session_written _
             (λ p, item_signature p.2.2 = item_signature (i, x).2.2)).
  - rewrite (filter_key_elem (λ p : Z * (str * item), item_signature p.2.2) _ (i, x)); [done| |done].
    replace (map (λ p : Z * (str * item), item_signature p.2.2) (numbered 1 K))
      with (map (λ y : str * item, item_signature y.2) (numbered 1 K).*2)
      by (by rewrite <- list_fmap_compose).
    rewrite numbered_snd. apply first_copies_NoDup.
  - intros [j y] Hj. simpl.
    rewrite (target_signature_written 1 K j y); [done|done|].
    apply elem_of_numbered in Hj as [_ Hy].
    by apply kept_elem_of in Hy as [_ ?].
Qed.
End Result.

(** *** Processing order *)

Lemma sorted_all {A} (R : A → A → Prop) l :
  (∀ x y, x ∈ l → y ∈ l → R x y) → StronglySorted R l.
Proof.
  induction l as [|x l IH]; intros Hl; constructor.
  - apply IH. intros y z Hy Hz. apply Hl; by right.
  - apply Forall_forall. intros y Hy. apply Hl; [by left|by right].
Qed.

Section Order.
Variable disk : str → option file.

Lemma no_later_refl f : no_later disk f f.
Proof. intros tf tg Hf Hg. rewrite Hf in Hg. injection Hg as ->. lia. Qed.

Lemma files_sorted source_files :
  StronglySorted (no_later disk) (files_with_times disk source_files).*2.
Proof.
  assert (∀ a, a ∈ files_with_times disk source_files →
               source_timestamp disk a.2 = Some a.1) as Hts.
  { intros [t f] Hin. by apply elem_of_files_with_times in Hin as [_ ?]. }
  assert (StronglySorted (λ a b : Z * str, a.1 ≤ b.1)
            (files_with_times disk source_files)) as Hs
    by apply (SortFacts.stable_sort_sorted fst).
  induction Hs as [|a l Hl IH Ha]; [constructor|].
  simpl. constructor.
  - apply IH. intros b Hb. apply Hts. by right.
  - apply Forall_fmap, Forall_forall. intros b Hb tf tg Hf Hg. simpl in *.
    rewrite Forall_forall in Ha. specialize (Ha b Hb). simpl in Ha.
    rewrite (Hts a) in Hf by (by left). rewrite (Hts b) in Hg by (by right).
    injection Hf as <-. injection Hg as <-. done.
Qed.

Lemma items_sorted files :
  StronglySorted (no_later disk) files →
  StronglySorted (λ x y : str * item, no_later disk x.1 y.1) (items_of disk files).
Proof.
  induction 1 as [|f files Hfiles IH Hf]; [constructor|].
  unfold items_of. simpl flat_map. fold (items_of disk files).
  apply StronglySorted_app_2; [| |done].
  - intros x [g it] (y & -> & _)%list_elem_of_fmap [Hg _]%elem_of_items_of. simpl.
    rewrite Forall_forall in Hf. by apply Hf.
  - apply sorted_all. intros x y (? & -> & _)%list_elem_of_fmap (? & -> & _)%list_elem_of_fmap.
    apply no_later_refl.
Qed.

(** The trace follows the processing order: its entries are numbered
    upwards, and an earlier entry comes from a source that is no later. *)
Lemma kept_sorted source_files :
  StronglySorted (λ p q : Z * (str * item), p.1 < q.1 ∧ no_later disk p.2.1 q.2.1)
    (numbered 1 (first_copies ∅ (sessions_read disk source_files))).
Proof.
  apply (numbered_sorted (λ x y : str * item, no_later disk x.1 y.1)).
  eapply sorted_sublist; [apply first_copies_sublist|].
  apply items_sorted, files_sorted.
Qed.

(** *** Leaving out the sources that cannot be read *)





(** A source that cannot be read raises before anything is written. *)
Lemma read_source_unreadable f c st :
  read_store c = None → read_source f c st = (inl (read_error c), st).
Proof.
  destruct c as [|db]; [done|]. unfold read_source, read_store.
  destruct (sessions db) as [s|]; [|done]. simpl. intros Hnone.
  change (table (Some s)) with (mret s : M _).
  unfold mbind at 1, M_bind, mret, M_ret.
  destruct (select_sessions s) as [|row rows]; [done|].
  destruct (history db) as [h|] eqn:Hh; [done|].
  change (for_each ?g (row :: rows)) with (g row ;; for_each g rows).
  unfold mbind, M_bind, merge_session. by rewrite Hh.
Qed.

Lemma process_source_unreadable verbose st f :
  ¬ readable disk f →
  process_source disk verbose st f
  = noted verbose [Warning f (read_error (connect disk f))] st.
Proof.
  intros Hf. unfold process_source. rewrite read_source_unreadable; [done|].
  unfold readable in Hf. destruct (read_store (connect disk f)); [|done].
  exfalso. apply Hf. eauto.
Qed.
End Order.

End MergerFacts.


(** ** History merger: the claims

    The properties below are about a run into a fresh target, on
    sources that keep the primary keys of the schema. *)

(** C2. Deduplication goes by content alone.  When two sources each
    hold a session with the same signature, whatever their original
    session ids, the target holds exactly one session with this
    signature. *)
Theorem C2_dedup_by_content (disk : str → option Merger.file) (verbose : bool)
    (source_files : list str) (fa fb : str) (la lb : list Merger.item)
    (a b : Merger.item) :
  Forall (λ f, Merger.keys_unique (Merger.connect disk f)) source_files →
  fa ∈ source_files → fb ∈ source_files →
  Merger.read_store (Merger.connect disk fa) = Some la →
  Merger.read_store (Merger.connect disk fb) = Some lb →
  a ∈ la → b ∈ lb →
  Merger.item_signature a = Merger.item_signature b →
  let T := Merger.target (Merger.merge_histories disk verbose source_files Merger.fresh) in
  length (filter (λ r, Merger.target_signature T (Merger.session r) = Merger.item_signature a)
            (Merger.t_sessions T)) = 1%nat.
Proof.
  intros Hkeys Hfa _ Hla _ Ha _ _ T.
  assert ((fa, a) ∈ Merger.sessions_read disk source_files) as Hin.
  { apply MergerFacts.elem_of_sessions_read. eauto. }
  assert (Merger.item_signature a
          ∈ map (λ x : str * Merger.item, Merger.item_signature x.2)
              (Merger.first_copies ∅ (Merger.sessions_read disk source_files))) as Hsig.
  { apply MergerFacts.elem_of_first_copies_sig. split; [|apply not_elem_of_empty].
    apply (list_elem_of_fmap_2 (λ x : str * Merger.item, Merger.item_signature x.2)) in Hin.
    done. }
  apply list_elem_of_fmap in Hsig as (x & Hx & Hkept).
  destruct (MergerFacts.target_sessions_with_signature disk verbose source_files Hkeys x Hkept)
    as (i & _ & Hfilter).
  fold T in Hfilter. rewrite Hx. by rewrite Hfilter.
Qed.

Lemma C2_dedup_by_content_witness :
  let T := Merger.target (Merger.merge_histories Example.disk true Example.source_files
                            Merger.fresh) in
  Forall (λ f, Merger.keys_unique (Merger.connect Example.disk f)) Example.source_files
  ∧ Merger.item_signature Example.session_a = Merger.item_signature Example.session_b
  ∧ length (filter (λ r, Merger.target_signature T (Merger.session r)
                         = Merger.item_signature Example.session_a)
              (Merger.t_sessions T)) = 1%nat.
Proof.
  intros T.
  assert (Forall (λ f, Merger.keys_unique (Merger.connect Example.disk f))
            Example.source_files) as Hkeys
    by (apply (bool_decide_unpack _); by vm_compute).
  split; [exact Hkeys|]. split; [reflexivity|].
  eapply (C2_dedup_by_content Example.disk true Example.source_files
            Example.file_a Example.file_b _ _ Example.session_a Example.session_b Hkeys).
  - by right; right; left.
  - by left.
  - vm_compute. reflexivity.
  - vm_compute. reflexivity.
  - by left.
  - by left.
  - reflexivity.
Defined.

(** C3. The session ids of the target are 1..N without a gap, N being
    the number of distinct signatures among the sessions of the sources
    that were read; the counter ends at N + 1, and every command and
    output row carries one of these ids. *)
Theorem C3_session_ids_contiguous (disk : str → option Merger.file) (verbose : bool)
    (source_files : list str) :
  Forall (λ f, Merger.keys_unique (Merger.connect disk f)) source_files →
  let st := Merger.merge_histories disk verbose source_files Merger.fresh in
  let N := Z.of_nat (size (list_to_set
                             (map (λ x : str * Merger.item, Merger.item_signature x.2)
                                (Merger.sessions_read disk source_files))
                           : gset Merger.signature)) in
  map Merger.session (Merger.t_sessions (Merger.target st)) = seqZ 1 N
  ∧ Merger.next_session_id st = 1 + N
  ∧ Forall (λ r, 1 ≤ Merger.h_session r ≤ N) (Merger.t_history (Merger.target st))
  ∧ Forall (λ r, 1 ≤ Merger.o_session r ≤ N) (Merger.t_output_history (Merger.target st)).
Proof.
  intros Hkeys st N.
  destruct (MergerFacts.merge_result disk verbose source_files
              (MergerFacts.keys_unique_elem disk source_files Hkeys))
    as (HT & Hnext & _).
  fold st in HT, Hnext.
  set (K := Merger.first_copies ∅ (Merger.sessions_read disk source_files)) in *.
  assert (Z.of_nat (length K) = N) as HN.
  { unfold K, N. rewrite MergerFacts.length_first_copies. do 2 f_equal.
    apply set_eq. intros σ. rewrite elem_of_difference. split; [tauto|].
    intros ?. split; [done|]. apply not_elem_of_empty. }
  rewrite HT, Hnext, HN. simpl. repeat split.
  - rewrite <- list_fmap_compose.
    erewrite list_fmap_ext; [rewrite MergerFacts.numbered_fst; by rewrite HN|].
    by intros j [].
  - apply Forall_forall. intros r Hr. apply list_elem_of_In, in_flat_map in Hr.
    destruct Hr as ([j x] & Hj%list_elem_of_In & Hr%list_elem_of_In).
    apply MergerFacts.elem_of_numbered in Hj as [Hj _].
    apply list_elem_of_fmap in Hr as (c & -> & _). simpl. lia.
  - apply Forall_forall. intros r Hr. apply list_elem_of_In, in_flat_map in Hr.
    destruct Hr as ([j x] & Hj%list_elem_of_In & Hr%list_elem_of_In).
    apply MergerFacts.elem_of_numbered in Hj as [Hj _].
    apply list_elem_of_fmap in Hr as (c & -> & _). simpl. lia.
Qed.

Lemma C3_session_ids_contiguous_witness :
  let st := Merger.merge_histories Example.disk true Example.source_files Merger.fresh in
  Forall (λ f, Merger.keys_unique (Merger.connect Example.disk f)) Example.source_files
  ∧ map Merger.session (Merger.t_sessions (Merger.target st)) = [1; 2]
  ∧ Merger.next_session_id st = 3.
Proof.
  intros st.
  assert (Forall (λ f, Merger.keys_unique (Merger.connect Example.disk f))
            Example.source_files) as Hkeys
    by (apply (bool_decide_unpack _); by vm_compute).
  split; [exact Hkeys|].
  destruct (C3_session_ids_contiguous Example.disk true Example.source_files Hkeys)
    as (Hids & Hnext & _).
  split; [etrans; [exact Hids|] | etrans; [exact Hnext|]]; by vm_compute.
Defined.

(** C10. Of the sessions that share a signature, the first one in
    processing order gives the target its metadata: the one session of
    the target with this signature has the start, end, command count
    and remark of that first copy. *)
Theorem C10_first_copy_metadata (disk : str → option Merger.file) (verbose : bool)
    (source_files : list str) (σ : Merger.signature) (f : str) (first : Merger.item) :
  Forall (λ f, Merger.keys_unique (Merger.connect disk f)) source_files →
  head (filter (λ x : str * Merger.item, Merger.item_signature x.2 = σ)
          (Merger.sessions_read disk source_files)) = Some (f, first) →
  let T := Merger.target (Merger.merge_histories disk verbose source_files Merger.fresh) in
  ∃ id, filter (λ r, Merger.target_signature T (Merger.session r) = σ) (Merger.t_sessions T)
        = [Merger.SessionRow id (Merger.start_time first.1.1) (Merger.end_time first.1.1)
             (Merger.num_cmds first.1.1) (Merger.remark first.1.1)].
Proof.
  intros Hkeys Hfirst T.
  rewrite <- (MergerFacts.first_copies_head ∅) in Hfirst by apply not_elem_of_empty.
  apply head_Some_elem_of, list_elem_of_filter in Hfirst as [Hσ Hkept].
  destruct (MergerFacts.target_sessions_with_signature disk verbose source_files Hkeys
              (f, first) Hkept) as (i & _ & Hfilter).
  fold T in Hfilter. simpl in Hσ, Hfilter. rewrite Hσ in Hfilter. by exists i.
Qed.

Lemma C10_first_copy_metadata_witness :
  let T := Merger.target (Merger.merge_histories Example.disk true Example.source_files
                            Merger.fresh) in
  let σ := Merger.item_signature Example.session_b in
  Forall (λ f, Merger.keys_unique (Merger.connect Example.disk f)) Example.source_files
  ∧ head (filter (λ x : str * Merger.item, Merger.item_signature x.2 = σ)
            (Merger.sessions_read Example.disk Example.source_files))
    = Some (Example.file_a, Example.session_a)
  ∧ ∃ id, filter (λ r, Merger.target_signature T (Merger.session r) = σ) (Merger.t_sessions T)
          = [Merger.SessionRow id (Some (lit "2024-01-01 10:00"))
               (Some (lit "2024-01-01 11:00")) (Some 2) None].
Proof.
  intros T σ.
  assert (Forall (λ f, Merger.keys_unique (Merger.connect Example.disk f))
            Example.source_files) as Hkeys
    by (apply (bool_decide_unpack _); by vm_compute).
  assert (head (filter (λ x : str * Merger.item, Merger.item_signature x.2 = σ)
                  (Merger.sessions_read Example.disk Example.source_files))
          = Some (Example.file_a, Example.session_a)) as Hfirst by (by vm_compute).
  split; [exact Hkeys|]. split; [exact Hfirst|].
  exact (C10_first_copy_metadata Example.disk true Example.source_files σ
           Example.file_a Example.session_a Hkeys Hfirst).
Defined.

(** C4. Target ids follow the sort timestamps of the sources.  Of two
    sessions that the run accepted, the one that comes from the source
    with the smaller timestamp (from the file name, else the mtime) has
    the smaller target id.  An accepted session is a session of its
    source, written to the target under its id; and a session that is
    the first one with its content is accepted. *)
Theorem C4_ids_follow_timestamps (disk : str → option Merger.file) (verbose : bool)
    (source_files : list str) :
  Forall (λ f, Merger.keys_unique (Merger.connect disk f)) source_files →
  let st := Merger.merge_histories disk verbose source_files Merger.fresh in
  (∀ fa fb ta tb sa sb ia ib,
     Merger.source_timestamp disk fa = Some ta →
     Merger.source_timestamp disk fb = Some tb →
     ta < tb →
     (fa, sa, ia) ∈ Merger.accepted st → (fb, sb, ib) ∈ Merger.accepted st →
     ia < ib)
  ∧ (∀ f s i, (f, s, i) ∈ Merger.accepted st →
       ∃ x, (f, x) ∈ Merger.sessions_read disk source_files
            ∧ Merger.session x.1.1 = s
            ∧ Merger.renumber_session i x.1.1 ∈ Merger.t_sessions (Merger.target st))
  ∧ (∀ f x, head (filter (λ y : str * Merger.item,
                            Merger.item_signature y.2 = Merger.item_signature x)
                    (Merger.sessions_read disk source_files)) = Some (f, x) →
       ∃ i, (f, Merger.session x.1.1, i) ∈ Merger.accepted st).
Proof.
  intros Hkeys st.
  destruct (MergerFacts.merge_result disk verbose source_files
              (MergerFacts.keys_unique_elem disk source_files Hkeys))
    as (HT & _ & Hacc & _).
  fold st in HT, Hacc.
  set (K := Merger.first_copies ∅ (Merger.sessions_read disk source_files)) in *.
  rewrite HT, Hacc. repeat split.
  - intros fa fb ta tb sa sb ia ib Hta Htb Hlt
      ([i [f x]] & [= -> -> ->] & Hp)%list_elem_of_fmap
      ([j [g y]] & [= -> -> ->] & Hq)%list_elem_of_fmap.
    simpl in *.
    destruct (SortFacts.sorted_elem_of _ _ _ _
                (MergerFacts.kept_sorted disk source_files) Hp Hq)
      as [Heq|[[Hij _]|[_ Hgf]]]; simpl in *.
    + injection Heq as -> -> ->. rewrite Hta in Htb. injection Htb as ->. lia.
    + done.
    + specialize (Hgf tb ta Htb Hta). lia.
  - intros f s i ([j [g x]] & [= -> -> ->] & Hp)%list_elem_of_fmap. simpl.
    exists x. split; [|split; [done|]].
    + apply MergerFacts.elem_of_numbered in Hp as [_ Hx].
      by apply MergerFacts.kept_elem_of in Hx as [? _].
    + simpl. by apply (list_elem_of_fmap_2 Merger.session_written) in Hp.
  - intros f x Hfirst.
    rewrite <- (MergerFacts.first_copies_head ∅) in Hfirst by apply not_elem_of_empty.
    apply head_Some_elem_of, list_elem_of_filter in Hfirst as [_ Hkept].
    destruct (MergerFacts.numbered_elem_of 1 K (f, x) Hkept) as [i Hi].
    exists i. by apply (list_elem_of_fmap_2 Merger.trace_entry) in Hi.
Qed.

Lemma C4_ids_follow_timestamps_witness :
  let st := Merger.merge_histories Example.disk true Example.source_files Merger.fresh in
  Forall (λ f, Merger.keys_unique (Merger.connect Example.disk f)) Example.source_files
  ∧ (Merger.source_timestamp Example.disk Example.file_a = Some 100
     ∧ Merger.source_timestamp Example.disk Example.file_b = Some 200
     ∧ (Example.file_a, 1, 1) ∈ Merger.accepted st
     ∧ (Example.file_b, 6, 2) ∈ Merger.accepted st)
  ∧ 1 < 2.
Proof.
  intros st.
  assert (Forall (λ f, Merger.keys_unique (Merger.connect Example.disk f))
            Example.source_files) as Hkeys
    by (apply (bool_decide_unpack _); by vm_compute).
  assert ((Example.file_a, 1, 1) ∈ Merger.accepted st) as Ha
    by (apply (bool_decide_unpack _); by vm_compute).
  assert ((Example.file_b, 6, 2) ∈ Merger.accepted st) as Hb
    by (apply (bool_decide_unpack _); by vm_compute).
  split; [exact Hkeys|]. split; [by repeat split|].
  destruct (C4_ids_follow_timestamps Example.disk true Example.source_files Hkeys)
    as [Horder _].
  apply (Horder Example.file_a Example.file_b 100 200 1 6 1 2);
    [reflexivity | reflexivity | reflexivity | exact Ha | exact Hb].
Defined.



(** Nothing rolls a source back.  On a target that already holds a
    command row under the id the run assigns, the session row goes in,
    the first command is refused, and what was written stays. *)
Example reused_target_keeps_partial_session :
  let reused := Merger.Target [] [Merger.HistoryRow 1 1 None None] [] in
  let st := Merger.merge_histories Example.disk true [Example.file_a] reused in
  map Merger.session (Merger.t_sessions (Merger.target st)) = [1]
  ∧ Merger.t_history (Merger.target st) = [Merger.HistoryRow 1 1 None None]
  ∧ Merger.stdout st
    = [Merger.Warning Example.file_a Merger.IntegrityError; Merger.Merged 1 0].
Proof. by vm_compute. Qed.

(** C8 fails on a source whose [history] table holds a line of its
    second session twice.  Both sessions are read with all their
    commands.  On a fresh target the first session is written in full;
    of the second, the row and the first command are inserted and the
    second command is refused.  The handler of [sqlite3.Error] prints
    the warning and rolls nothing back, so the commit keeps the first
    session of the abandoned source and the second session with one
    command of two.  The counter was not advanced past the second
    session: the first session of the next source is refused under the
    same id, and that source is lost as well. *)
Theorem C8_partial_session_is_committed :
  let row1 := Merger.SessionRow 1 (Some (lit "2024-04-04 08:00")) None (Some 1) None in
  let row2 := Merger.SessionRow 2 (Some (lit "2024-04-04 09:00")) None (Some 2) None in
  let a := Merger.HistoryRow 1 1 (Some (lit "a")) (Some (lit "a")) in
  let b := Merger.HistoryRow 2 1 (Some (lit "b")) (Some (lit "b")) in
  let c := Merger.HistoryRow 2 1 (Some (lit "c")) (Some (lit "c")) in
  let st := Merger.merge_histories Example.unkeyed_disk true [Example.file_k]
              Merger.fresh in
  let st' := Merger.merge_histories Example.unkeyed_disk true
               [Example.file_k; Example.file_a] Merger.fresh in
  Merger.read_store (Merger.connect Example.unkeyed_disk Example.file_k)
  = Some [(row1, [a], []); (row2, [b; c], [])]
  ∧ Merger.target st = Merger.Target [row1; row2] [a; b] []
  ∧ Merger.stdout st
    = [Merger.Warning Example.file_k Merger.IntegrityError; Merger.Merged 1 1]
  ∧ Merger.target st' = Merger.Target [row1; row2] [a; b] []
  ∧ Merger.stdout st'
    = [Merger.Warning Example.file_k Merger.IntegrityError;
       Merger.Warning Example.file_a Merger.IntegrityError;
       Merger.Merged 2 1].
Proof. by vm_compute. Qed.

(** X17.  On a fresh target and sources that keep the primary keys of
    the schema no insert is refused.  A source that cannot be read leaves
    the state of the run as it was, but for the warning; every session
    row of the final target comes with all the commands and outputs of
    the source session it was copied from; no command or output row is
    left without its session row; and every session read is there. *)
Theorem X17_complete_sessions_on_keyed_sources (disk : str → option Merger.file) (verbose : bool)
    (source_files : list str) :
  Forall (λ f, Merger.keys_unique (Merger.connect disk f)) source_files →
  let T := Merger.target (Merger.merge_histories disk verbose source_files Merger.fresh) in
  (∀ st f, ¬ Merger.readable disk f →
     Merger.process_source disk verbose st f
     = Merger.noted verbose
         [Merger.Warning f (Merger.read_error (Merger.connect disk f))] st)
  ∧ (∀ r, r ∈ Merger.t_sessions T →
       ∃ f x, (f, x) ∈ Merger.sessions_read disk source_files
              ∧ r = Merger.renumber_session (Merger.session r) x.1.1
              ∧ Merger.select_history (Merger.t_history T) (Merger.session r)
                = map (Merger.renumber_history (Merger.session r)) x.1.2
              ∧ Merger.select_output (Merger.t_output_history T) (Merger.session r)
                = map (Merger.renumber_output (Merger.session r)) x.2)
  ∧ (∀ c, c ∈ Merger.t_history T →
       Merger.h_session c ∈ map Merger.session (Merger.t_sessions T))
  ∧ (∀ o, o ∈ Merger.t_output_history T →
       Merger.o_session o ∈ map Merger.session (Merger.t_sessions T))
  ∧ (∀ f x, (f, x) ∈ Merger.sessions_read disk source_files →
       ∃ r, r ∈ Merger.t_sessions T
            ∧ Merger.target_signature T (Merger.session r) = Merger.item_signature x).
Proof.
  intros Hkeys T. split; [intros st f; apply MergerFacts.process_source_unreadable|].
  assert (∀ f x, (f, x) ∈ Merger.sessions_read disk source_files →
            ∃ r, r ∈ Merger.t_sessions T
                 ∧ Merger.target_signature T (Merger.session r) = Merger.item_signature x)
    as Hall.
  { intros f x Hin.
    assert (Merger.item_signature x
            ∈ map (λ y : str * Merger.item, Merger.item_signature y.2)
                (Merger.first_copies ∅ (Merger.sessions_read disk source_files))) as Hsig.
    { apply MergerFacts.elem_of_first_copies_sig. split; [|apply not_elem_of_empty].
      by apply (list_elem_of_fmap_2 (λ y : str * Merger.item, Merger.item_signature y.2))
        in Hin. }
    apply list_elem_of_fmap in Hsig as (y & Hy & Hkept).
    destruct (MergerFacts.target_sessions_with_signature disk verbose source_files Hkeys
                y Hkept) as (i & _ & Hfilter).
    fold T in Hfilter. exists (Merger.renumber_session i y.2.1.1).
    assert (Merger.renumber_session i y.2.1.1
            ∈ filter (λ r, Merger.target_signature T (Merger.session r)
                           = Merger.item_signature y.2) (Merger.t_sessions T)) as Hr
      by (rewrite Hfilter; by left).
    apply list_elem_of_filter in Hr as [Hr ?]. split; [done|]. by rewrite Hy. }
  cut ((∀ r, r ∈ Merger.t_sessions T →
       ∃ f x, (f, x) ∈ Merger.sessions_read disk source_files
              ∧ r = Merger.renumber_session (Merger.session r) x.1.1
              ∧ Merger.select_history (Merger.t_history T) (Merger.session r)
                = map (Merger.renumber_history (Merger.session r)) x.1.2
              ∧ Merger.select_output (Merger.t_output_history T) (Merger.session r)
                = map (Merger.renumber_output (Merger.session r)) x.2)
  ∧ (∀ c, c ∈ Merger.t_history T →
       Merger.h_session c ∈ map Merger.session (Merger.t_sessions T))
  ∧ (∀ o, o ∈ Merger.t_output_history T →
       Merger.o_session o ∈ map Merger.session (Merger.t_sessions T))); [tauto|].
  clear Hall.
  destruct (MergerFacts.merge_result disk verbose source_files
              (MergerFacts.keys_unique_elem disk source_files Hkeys))
    as (HT & _).
  fold T in HT.
  set (K := Merger.first_copies ∅ (Merger.sessions_read disk source_files)) in *.
  rewrite HT. simpl. repeat split.
  - intros r ([i [f x]] & -> & Hp)%list_elem_of_fmap.
    pose proof Hp as [_ Hx]%MergerFacts.elem_of_numbered.
    apply MergerFacts.kept_elem_of in Hx as [Hread Hsorted].
    exists f, x. simpl. split; [done|]. split; [done|]. split.
    + by rewrite (MergerFacts.select_history_written 1 K i (f, x)).
    + by rewrite (MergerFacts.select_output_written 1 K i (f, x)).
  - intros c Hc. apply list_elem_of_In, in_flat_map in Hc.
    destruct Hc as (p & Hp%list_elem_of_In & Hc%list_elem_of_In).
    apply list_elem_of_fmap in Hc as (c' & -> & _). simpl.
    by apply (list_elem_of_fmap_2 (Merger.session ∘ Merger.session_written)) in Hp;
      rewrite list_fmap_compose in Hp.
  - intros o Ho. apply list_elem_of_In, in_flat_map in Ho.
    destruct Ho as (p & Hp%list_elem_of_In & Ho%list_elem_of_In).
    apply list_elem_of_fmap in Ho as (o' & -> & _). simpl.
    by apply (list_elem_of_fmap_2 (Merger.session ∘ Merger.session_written)) in Hp;
      rewrite list_fmap_compose in Hp.
Qed.

Lemma X17_complete_sessions_on_keyed_sources_witness :
  let st := Merger.merge_histories Example.disk true Example.source_files Merger.fresh in
  let T := Merger.target st in
  Forall (λ f, Merger.keys_unique (Merger.connect Example.disk f)) Example.source_files
  ∧ Merger.process_source Example.disk true st Example.file_c
    = Merger.noted true [Merger.Warning Example.file_c Merger.OperationalError] st
  ∧ ∀ c, c ∈ Merger.t_history T →
         Merger.h_session c ∈ map Merger.session (Merger.t_sessions T).
Proof.
  intros st T.
  assert (Forall (λ f, Merger.keys_unique (Merger.connect Example.disk f))
            Example.source_files) as Hkeys
    by (apply (bool_decide_unpack _); by vm_compute).
  destruct (X17_complete_sessions_on_keyed_sources Example.disk true Example.source_files Hkeys)
    as (Hskip & _ & Hrows & _).
  split; [exact Hkeys|]. split; [|exact Hrows].
  apply Hskip. intros [x Hx]. by vm_compute in Hx.
Defined.

(** * Further properties *)

(** ** File names: what is written is read back *)

Module NameFacts.
Import PyStr PyStrFacts Grammar GrammarFacts.

Lemma endswith_spec p s : endswith p s = true ↔ ∃ r, s = r ++ p.
Proof.
  unfold endswith. rewrite startswith_spec. split.
  - intros [r Hr]. exists (reverse r).
    apply (f_equal reverse) in Hr.
    by rewrite reverse_involutive, reverse_app, reverse_involutive in Hr.
  - intros [r ->]. exists (reverse r). by rewrite reverse_app.
Qed.

Lemma split_host h :
  "_"%char ∉ h →
  split "_"%char (lit "ipython_history_" ++ h) = [lit "ipython"; lit "history"; h].
Proof.
  intros Hh.
  change (lit "ipython_history_" ++ h)
    with (lit "ipython" ++ "_"%char :: (lit "history" ++ "_"%char :: h)).
  rewrite !split_app, (split_plain _ h) by done. done.
Qed.

Lemma host_unmarked h :
  plain_host h → contains (lit "_completed") (lit "ipython_history_" ++ h) = false.
Proof.
  intros [Hsep Hpre]. change (lit "_completed") with ("_"%char :: lit "completed").
  rewrite CatalogFacts.contains_split by apply sep_not_in_completed.
  rewrite split_host by done. cbn [tail existsb]. by rewrite Hpre.
Qed.

Lemma fields_completed_plain h t :
  plain_host h → fields (completed h t) = [lit "ipython"; lit "history"; h; of_int t].
Proof.
  intros Hh. rewrite fields_completed, replace_absent by by apply host_unmarked.
  destruct Hh as [Hsep _]. by rewrite split_host.
Qed.

Lemma sort_key_completed cur h t :
  plain_host h → Catalog.sort_key cur (completed h t) = Some (bool_decide (h = cur), t).
Proof.
  intros Hh. unfold Catalog.sort_key. rewrite fields_completed_plain by done.
  change (last_field [lit "ipython"; lit "history"; h; of_int t]) with (of_int t).
  by rewrite int_of_int.
Qed.

End NameFacts.


(** ** The catalog: selection and order *)

Module OrderFacts.

Section Generic.
Context {A : Type} (before : A → A → bool) (P : A → Prop).
Hypothesis asym : ∀ x y, P x → P y → before x y = true → before y x = false.
Hypothesis trans : ∀ x y z, P x → P y → P z →
  before y x = false → before z y = false → before z x = false.

Lemma sort_insert_ordered x l :
  P x → Forall P l →
  StronglySorted (λ a b, before b a = false) l →
  StronglySorted (λ a b, before b a = false) (sort_insert before x l).
Proof.
  intros Hx Hl Hs. induction Hs as [|y l Hs IH Hy]; simpl.
  { repeat constructor. }
  apply Forall_cons in Hl as [HPy HPl].
  destruct (before y x) eqn:E.
  - constructor; [by apply IH|].
    rewrite (SortFacts.sort_insert_perm before x l).
    constructor; [by apply asym|done].
  - constructor; [by constructor|].
    constructor; [done|].
    rewrite Forall_forall in Hy, HPl. apply Forall_forall. intros z Hz.
    apply (trans x y z); auto.
Qed.

Lemma stable_sort_ordered l :
  Forall P l → StronglySorted (λ a b, before b a = false) (stable_sort before l).
Proof.
  induction 1 as [|x l Hx Hl IH]; simpl; [constructor|].
  apply sort_insert_ordered; [done| |done].
  by rewrite (SortFacts.stable_sort_perm before l).
Qed.
End Generic.

Lemma sorted_weaken {A} (R1 R2 : A → A → Prop) l :
  (∀ x y, R1 x y → R2 x y) → StronglySorted R1 l → StronglySorted R2 l.
Proof.
  intros HR. induction 1 as [|x l Hs IH Hx]; constructor; [done|].
  eapply Forall_impl; [exact Hx|]. intros y. apply HR.
Qed.

Lemma key_lt_asym a b : Catalog.key_lt a b = true → Catalog.key_lt b a = false.
Proof.
  destruct a as [[] x], b as [[] y]; unfold Catalog.key_lt; simpl; try done;
    rewrite Z.ltb_lt; intros; apply Z.ltb_ge; lia.
Qed.

Lemma key_lt_trans a b c :
  Catalog.key_lt a b = false → Catalog.key_lt b c = false → Catalog.key_lt a c = false.
Proof.
  destruct a as [[] x], b as [[] y], c as [[] z]; unfold Catalog.key_lt; simpl; try done;
    rewrite !Z.ltb_ge; lia.
Qed.

End OrderFacts.
Module SelectionFacts.
Import PyStr PyStrFacts Grammar GrammarFacts Catalog CatalogFacts Notions.

Local Abbreviation completed_glob := (PyPath.Glob (lit "ipython_history_") (lit "_completed.db")).
Local Abbreviation db_glob := (PyPath.Glob (lit "ipython_history_") (lit ".db")).

Lemma in_progress_not_completed h p t :
  PyPath.matches completed_glob (in_progress h p t) = false.
Proof.
  unfold PyPath.matches. simpl PyPath.before. simpl PyPath.after.
  by rewrite endswith_in_progress, andb_false_r.
Qed.

(** A name that the first pattern selects carries the marker that the
    second loop tests. *)
Lemma completed_glob_marked f :
  PyPath.matches completed_glob f = true → contains (lit "_completed") f = true.
Proof.
  unfold PyPath.matches. cbn [PyPath.before PyPath.after].
  intros [_ He]%andb_true_iff. apply NameFacts.endswith_spec in He as [r Hr].
  apply contains_spec. exists (take (length (lit "ipython_history_")) f ++ r), (lit ".db").
  transitivity (take (length (lit "ipython_history_")) f
                ++ drop (length (lit "ipython_history_")) f); [by rewrite take_drop|].
  rewrite Hr, <- !app_assoc. done.
Qed.

Lemma completed_glob_not_regular cur current_file f :
  PyPath.matches completed_glob f = true → regular_safe cur current_file f = false.
Proof.
  intros Hm. unfold regular_safe. rewrite (completed_glob_marked f Hm).
  by destruct (bool_decide _).
Qed.

Lemma sort_key_well_formed cur f : well_formed f → is_Some (sort_key cur f).
Proof.
  intros (h & t & Hh & [->|[p ->]]).
  - rewrite NameFacts.sort_key_completed by done. by eexists.
  - destruct (UnderscoreFacts.sort_key_in_progress cur h p t) as [x ->]. by eexists.
Qed.

Lemma sort_key_none cur f : sort_key cur f = None ↔ (length (fields f) < 4)%nat.
Proof.
  unfold sort_key. destruct (4 <=? length (fields f))%nat eqn:E.
  - apply Nat.leb_le in E. split; [|lia].
    destruct (fields f !! 2%nat); [|done]. by destruct (int _).
  - apply Nat.leb_gt in E. done.
Qed.

Lemma existsb_elem_of {A} (p : A → bool) l : existsb p l = true ↔ ∃ x, x ∈ l ∧ p x = true.
Proof.
  rewrite existsb_exists. split; intros (x & Hx & Hp); exists x; split; try done;
    by apply list_elem_of_In.
Qed.

(** When the sort raises, and what it returns otherwise. *)
Lemma sort_reverse_spec cur l :
  match sort_reverse cur l with
  | inr l' => l' ≡ₚ l ∧ StronglySorted (key_order cur) l'
  | inl _ => (2 ≤ length l)%nat ∧ ∃ f, f ∈ l ∧ (length (fields f) < 4)%nat
  end.
Proof.
  unfold sort_reverse.
  set (before := λ f g, match sort_key cur f, sort_key cur g with
                        | Some a, Some b => key_lt b a
                        | _, _ => false
                        end).
  assert (∀ l', StronglySorted (λ a b, before b a = false) l' →
                StronglySorted (key_order cur) l') as Hweak.
  { intros l'. apply OrderFacts.sorted_weaken.
    intros f g Hfg a b Ha Hb. unfold before in Hfg. by rewrite Hb, Ha in Hfg. }
  destruct (2 <=? length l)%nat eqn:Elen; simpl.
  - destruct (existsb _ _) eqn:Eex.
    + apply Nat.leb_le in Elen. split; [done|].
      apply existsb_elem_of in Eex as ([k f] & Hin & Hk).
      apply list_elem_of_fmap in Hin as (g & [= -> ->] & Hg).
      exists g. split; [done|]. apply (sort_key_none cur).
      by apply bool_decide_eq_true in Hk.
    + split; [apply SortFacts.stable_sort_perm|]. apply Hweak.
      apply (OrderFacts.stable_sort_ordered before (λ f, is_Some (sort_key cur f))).
      * intros x y [a Ha] [b Hb]. unfold before. rewrite Ha, Hb.
        apply OrderFacts.key_lt_asym.
      * intros x y z [a Ha] [b Hb] [c Hc]. unfold before. rewrite Ha, Hb, Hc.
        intros H1 H2. by apply (OrderFacts.key_lt_trans a b c).
      * apply Forall_forall. intros f Hf.
        destruct (sort_key cur f) as [a|] eqn:Ekey; [by eexists|].
        assert (existsb (λ kf : option (bool * Z) * str, bool_decide (kf.1 = None))
                  (map (λ f, (sort_key cur f, f)) l) = true) as Habs; [|congruence].
        apply existsb_elem_of. exists (None, f). split; [|done].
        apply list_elem_of_fmap. exists f. by rewrite Ekey.
  - split; [apply SortFacts.stable_sort_perm|].
    apply Nat.leb_gt in Elen. destruct l as [|x [|y l]]; simpl in *; try lia.
    + constructor.
    + repeat constructor.
Qed.

End SelectionFacts.

(** X2.  On a directory in which every name is of the grammar, with host
    names that hold no underscore and do not begin with [completed],
    [get_safe_files_for_merge] does not raise, and it returns exactly
    the completed files of all hosts and the in-progress files of the
    other hosts, the file in use excepted. *)
Theorem X2_catalog_on_well_formed_names (current_hostname : str)
    (sync_dir : list str) (current_file : str) :
  Forall Notions.well_formed sync_dir →
  ∃ l, Catalog.get_safe_files_for_merge current_hostname sync_dir current_file = inr l
       ∧ ∀ f, f ∈ l
              ↔ f ∈ sync_dir
                ∧ ((∃ h t, f = Grammar.completed h t)
                   ∨ (∃ h p t, Grammar.plain_host h ∧ f = Grammar.in_progress h p t
                               ∧ h ≠ current_hostname ∧ f ≠ current_file)).
Proof.
  intros Hwf. rewrite Forall_forall in Hwf.
  pose proof (SelectionFacts.sort_reverse_spec current_hostname
                (Catalog.safe_files current_hostname sync_dir current_file)) as Hspec.
  unfold Catalog.get_safe_files_for_merge.
  destruct (Catalog.sort_reverse _ _) as [e|l].
  { destruct Hspec as (_ & f & Hf & Hshort).
    apply CatalogFacts.elem_of_safe_files in Hf as [Hf _].
    destruct (SelectionFacts.sort_key_well_formed current_hostname f (Hwf f Hf)) as [k Hk].
    apply (SelectionFacts.sort_key_none current_hostname) in Hshort. congruence. }
  destruct Hspec as [Hperm _]. exists l. split; [done|]. intros f.
  rewrite Hperm, CatalogFacts.elem_of_safe_files. split.
  - intros [Hin Hsel]. split; [done|].
    destruct (Hwf f Hin) as (h & t & Hh & [->|[p ->]]); [left; by exists h, t|].
    right. exists h, p, t. destruct Hsel as [Hm|[_ Hs]].
    { by rewrite SelectionFacts.in_progress_not_completed in Hm. }
    destruct (decide (Grammar.in_progress h p t = current_file)) as [Heq|Hne].
    { unfold Catalog.regular_safe in Hs. by rewrite bool_decide_eq_true_2 in Hs. }
    rewrite CatalogFacts.regular_safe_in_progress in Hs by done.
    by apply bool_decide_eq_true in Hs.
  - intros [Hin [(h & t & ->)|(h & p & t & Hh & -> & Hne & Hcur)]]; (split; [done|]).
    + left. apply CatalogFacts.matches_completed_pattern.
    + right. split; [apply CatalogFacts.matches_db_pattern|].
      rewrite CatalogFacts.regular_safe_in_progress by done. by apply bool_decide_eq_true_2.
Qed.

Lemma X2_catalog_on_well_formed_names_witness :
  let hostA := lit "hostA" in
  let hostB := lit "hostB" in
  let sync_dir := [Grammar.in_progress hostA 100 1000; Grammar.completed hostA 1000;
                   Grammar.in_progress hostB 200 1000] in
  Forall Notions.well_formed sync_dir
  ∧ ∃ l, Catalog.get_safe_files_for_merge hostA sync_dir (Grammar.in_progress hostA 999 2000)
         = inr l
         ∧ Grammar.completed hostA 1000 ∈ l
         ∧ Grammar.in_progress hostB 200 1000 ∈ l
         ∧ Grammar.in_progress hostA 100 1000 ∉ l.
Proof.
  intros hostA hostB sync_dir.
  assert (Grammar.plain_host hostA ∧ Grammar.plain_host hostB) as [HA HB].
  { by split; (split; [apply (bool_decide_unpack _)|]); vm_compute. }
  assert (Forall Notions.well_formed sync_dir) as Hwf.
  { repeat constructor.
    - exists hostA, 1000. split; [done|]. right. by exists 100.
    - exists hostA, 1000. split; [done|]. by left.
    - exists hostB, 1000. split; [done|]. right. by exists 200. }
  split; [done|].
  destruct (X2_catalog_on_well_formed_names hostA sync_dir
              (Grammar.in_progress hostA 999 2000) Hwf) as (l & Hl & Hin).
  exists l. split; [done|]. rewrite !Hin. repeat split.
  - by right; left.
  - left. by exists hostA, 1000.
  - by right; right; left.
  - right. exists hostB, 200, 1000.
    split; [done|]. split; [reflexivity|]. split; by vm_compute.
  - intros [_ [(h & t & Heq)|(h & p & t & Hh & Heq & Hne & _)]].
    + pose proof (SelectionFacts.in_progress_not_completed hostA 100 1000) as Hm.
      rewrite Heq, CatalogFacts.matches_completed_pattern in Hm. done.
    + apply (f_equal (λ f, PyStr.split "_"%char (PyPath.stem f))) in Heq.
      destruct Hh as [Hsep _].
      rewrite (CatalogFacts.split_in_progress h) in Heq by done.
      assert (PyStr.split "_"%char (PyPath.stem (Grammar.in_progress hostA 100 1000))
              = [lit "ipython"; lit "history"; hostA; lit "100"; lit "1000"]) as E
        by (by vm_compute).
      rewrite E in Heq. injection Heq as Hh _ _. exact (Hne (eq_sym Hh)).
Defined.

(** X3.  [get_safe_files_for_merge] raises [TypeError] only on two or
    more selected files of which one has a name of fewer than four
    fields.  Otherwise it returns the selected files, each once, in
    reverse order of their keys: a file of the local host never comes
    after a file of another host, and among the files of one kind a
    later timestamp never comes after an earlier one. *)
Theorem X3_catalog_order (current_hostname : str) (sync_dir : list str)
    (current_file : str) :
  let selected := Catalog.safe_files current_hostname sync_dir current_file in
  match Catalog.get_safe_files_for_merge current_hostname sync_dir current_file with
  | inr l => l ≡ₚ selected ∧ StronglySorted (Notions.key_order current_hostname) l
  | inl _ => (2 ≤ length selected)%nat
             ∧ ∃ f, f ∈ selected ∧ (length (Grammar.fields f) < 4)%nat
  end.
Proof. intros selected. apply SelectionFacts.sort_reverse_spec. Qed.

(** X4.  On a listing without repetitions [get_safe_files_for_merge]
    returns no file twice, although a completed file matches both of
    its patterns; every file it returns is in the directory; and the
    file in use is returned only if its own name ends in
    [_completed.db]. *)
Theorem X4_catalog_lists_no_file_twice (current_hostname : str) (sync_dir : list str)
    (current_file : str) (l : list str) :
  NoDup sync_dir →
  Catalog.get_safe_files_for_merge current_hostname sync_dir current_file = inr l →
  NoDup l
  ∧ l ⊆ sync_dir
  ∧ (current_file ∈ l →
     PyPath.matches (PyPath.Glob (lit "ipython_history_") (lit "_completed.db")) current_file
     = true).
Proof.
  intros Hnd Hl.
  pose proof (SelectionFacts.sort_reverse_spec current_hostname
                (Catalog.safe_files current_hostname sync_dir current_file)) as Hspec.
  unfold Catalog.get_safe_files_for_merge in Hl. rewrite Hl in Hspec.
  destruct Hspec as [Hperm _]. split; [|split].
  - rewrite Hperm. unfold Catalog.safe_files, PyPath.glob. apply NoDup_app.
    split; [by apply NoDup_filter|]. split; [|by do 2 apply NoDup_filter].
    intros f [Hm _]%list_elem_of_filter [Hs _]%list_elem_of_filter.
    apply Is_true_true in Hm, Hs.
    by rewrite (SelectionFacts.completed_glob_not_regular _ _ _ Hm) in Hs.
  - intros f. rewrite Hperm, CatalogFacts.elem_of_safe_files. by intros [? _].
  - rewrite Hperm, CatalogFacts.elem_of_safe_files. intros [_ [Hm|[_ Hs]]]; [done|].
    unfold Catalog.regular_safe in Hs. by rewrite bool_decide_eq_true_2 in Hs.
Qed.

Lemma X4_catalog_lists_no_file_twice_witness :
  let sync_dir := [lit "ipython_history_hostA_1000_completed.db";
                   lit "ipython_history_hostB_200_1000.db"] in
  let current_file := lit "ipython_history_hostA_999_2000.db" in
  let l := [lit "ipython_history_hostA_1000_completed.db";
            lit "ipython_history_hostB_200_1000.db"] in
  (NoDup sync_dir
   ∧ Catalog.get_safe_files_for_merge (lit "hostA") sync_dir current_file = inr l)
  ∧ NoDup l ∧ l ⊆ sync_dir.
Proof.
  intros sync_dir current_file l.
  assert (NoDup sync_dir) as Hnd by (apply (bool_decide_unpack _); by vm_compute).
  assert (Catalog.get_safe_files_for_merge (lit "hostA") sync_dir current_file = inr l)
    as Hl by (by vm_compute).
  destruct (X4_catalog_lists_no_file_twice (lit "hostA") sync_dir current_file l Hnd Hl)
    as (H1 & H2 & _).
  by repeat split.
Defined.
(** ** The cleaner as a filter *)

Module RetentionFacts.
Import Cleaner.

Lemma filter_ext_in {A} (P Q : A → Prop) `{!∀ x, Decision (P x), !∀ x, Decision (Q x)}
    (l : list A) :
  (∀ x, x ∈ l → P x ↔ Q x) → filter P l = filter Q l.
Proof.
  induction l as [|x l IH]; intros Hext; [done|].
  rewrite !filter_cons, IH by (intros y Hy; apply Hext; by right).
  pose proof (Hext x (list_elem_of_here _ _)) as Hx.
  destruct (decide (P x)), (decide (Q x)); try done; tauto.
Qed.

Lemma filter_all {A} (P : A → Prop) `{!∀ x, Decision (P x)} (l : list A) :
  (∀ x, x ∈ l → P x) → filter P l = l.
Proof.
  induction l as [|x l IH]; intros Hall; [done|].
  rewrite filter_cons, decide_True by (apply Hall; by left).
  by rewrite IH by (intros y Hy; apply Hall; by right).
Qed.

(** A name that the pattern of the completed files of a host selects
    is selected by the pattern of all its files. *)
Lemma matches_completed_host before f :
  PyPath.matches (PyPath.Glob before (lit "_completed.db")) f = true →
  PyPath.matches (PyPath.Glob before (lit ".db")) f = true.
Proof.
  unfold PyPath.matches. cbn [PyPath.before PyPath.after].
  intros [Hs He]%andb_true_iff. rewrite Hs. simpl.
  apply NameFacts.endswith_spec in He as [r Hr]. apply NameFacts.endswith_spec.
  exists (r ++ lit "_completed"). by rewrite Hr, <- app_assoc.
Qed.

Section WithFilesystem.
Variable can_unlink : str → bool.
Variables (current_file : str) (cutoff_time : Binary64.float).

Local Abbreviation removable := (Notions.removable can_unlink current_file cutoff_time).

Lemma removable_doomed f :
  removable f = true ↔ Cleaner.doomed can_unlink current_file cutoff_time f.
Proof.
  unfold Notions.removable, Cleaner.doomed.
  rewrite !andb_true_iff, bool_decide_eq_true. split.
  - intros [[Hne Hcan] Ht]. repeat split; [done..|].
    destruct (Grammar.file_timestamp f) as [t|]; [|done]. by exists t.
  - intros (Hne & Hcan & t & -> & Hold). done.
Qed.

Lemma visit_filter dir f :
  visit can_unlink current_file cutoff_time dir f
  = filter (λ g, ¬ (g = f ∧ removable f = true)) dir.
Proof.
  unfold visit, Notions.removable. case_bool_decide as Hcur.
  { rewrite bool_decide_eq_false_2 by (by intros ?). simpl.
    symmetry. apply filter_all. by intros g _ [_ ?]. }
  rewrite bool_decide_eq_true_2 by done. simpl.
  destruct (Grammar.file_timestamp f) as [t|]; simpl.
  2:{ rewrite andb_false_r. symmetry. apply filter_all. by intros g _ [_ ?]. }
  destruct (older t cutoff_time); simpl.
  2:{ rewrite andb_false_r. symmetry. apply filter_all. by intros g _ [_ ?]. }
  rewrite andb_true_r. unfold unlink.
  destruct (can_unlink f); simpl.
  2:{ symmetry. apply filter_all. by intros g _ [_ ?]. }
  case_bool_decide as Hin; simpl.
  - apply list_filter_iff. intros g. split; [by intros ? [? _]|]. intros Hn ->. by apply Hn.
  - symmetry. apply filter_all. by intros g Hg [-> _].
Qed.

Lemma visits_filter l dir :
  foldl (visit can_unlink current_file cutoff_time) dir l
  = filter (λ g, ¬ (g ∈ l ∧ removable g = true)) dir.
Proof.
  revert dir. induction l as [|f l IH]; intros dir; simpl.
  { symmetry. apply filter_all. by intros g _ [?%elem_of_nil _]. }
  rewrite IH, visit_filter, list_filter_filter. apply list_filter_iff. intros g. split.
  - intros [Hl Hf] [[->|Hg]%elem_of_cons Hr]; [by apply Hf | by apply Hl].
  - intros Hn. split.
    + intros [Hg Hr]. apply Hn. split; [by right|done].
    + intros [-> Hr]. apply Hn. split; [by left|done].
Qed.

Lemma sweep_filter p dir :
  sweep can_unlink p current_file cutoff_time dir
  = filter (λ g, ¬ (PyPath.matches p g = true ∧ removable g = true)) dir.
Proof.
  unfold sweep, PyPath.glob. rewrite visits_filter. apply filter_ext_in.
  intros g Hg. rewrite list_elem_of_filter, Is_true_true. tauto.
Qed.

Lemma sweeps_filter sync_dir hostname :
  sweeps can_unlink sync_dir hostname current_file cutoff_time
  = filter (λ g, ¬ (PyPath.matches (Grammar.host_pattern hostname) g = true
                    ∧ removable g = true)) sync_dir.
Proof.
  unfold sweeps. rewrite !sweep_filter. fold (Grammar.host_pattern hostname).
  apply list_filter_filter_r. intros g Hn [Hm Hr]. apply Hn. split; [|done].
  by apply matches_completed_host.
Qed.
End WithFilesystem.

End RetentionFacts.

(** X5.  [cleanup_old_files] only removes: what it leaves is the
    listing with some entries taken out, in the same order.  It never
    removes the file in use, a file that the pattern of the host does
    not select, a file whose last field is not an integer, or a file
    that may not be unlinked.  It raises only when [max_age_seconds] is
    too large for a float, and then before anything is removed. *)
Theorem X5_cleanup_spares (can_unlink : str → bool) (sync_dir : list str)
    (hostname current_file : str) (now : Q) (max_age_seconds : Z) :
  match Cleaner.cleanup_old_files can_unlink sync_dir hostname current_file
          now max_age_seconds with
  | inr after =>
      after `sublist_of` sync_dir
      ∧ ∀ f, f ∈ sync_dir →
             f = current_file
             ∨ PyPath.matches (Grammar.host_pattern hostname) f = false
             ∨ Grammar.file_timestamp f = None
             ∨ can_unlink f = false →
             f ∈ after
  | inl _ => Binary64.of_int max_age_seconds = None
  end.
Proof.
  unfold Cleaner.cleanup_old_files, Binary64.sub_int.
  destruct (Binary64.of_int max_age_seconds) as [age|]; [|done]. simpl.
  rewrite RetentionFacts.sweeps_filter. split; [apply sublist_filter|].
  intros f Hf Hsafe. apply list_elem_of_filter. split; [|done].
  unfold Notions.removable. intros [Hm Hr].
  apply andb_true_iff in Hr as [[Hne Hcan]%andb_true_iff Ht].
  apply bool_decide_eq_true in Hne.
  destruct Hsafe as [?|[?|[Hnone|?]]]; [done|congruence| |congruence].
  by rewrite Hnone in Ht.
Qed.

(** X6.  Cleaning twice is cleaning once: on the directory that
    [cleanup_old_files] leaves, a second call with the same clock
    reading and the same age removes nothing. *)
Theorem X6_cleanup_idempotent (can_unlink : str → bool) (sync_dir after : list str)
    (hostname current_file : str) (now : Q) (max_age_seconds : Z) :
  Cleaner.cleanup_old_files can_unlink sync_dir hostname current_file
    now max_age_seconds = inr after →
  Cleaner.cleanup_old_files can_unlink after hostname current_file
    now max_age_seconds = inr after.
Proof.
  unfold Cleaner.cleanup_old_files.
  destruct (Binary64.sub_int now max_age_seconds) as [cutoff_time|]; [|done].
  intros [= <-]. f_equal. rewrite !RetentionFacts.sweeps_filter.
  by apply list_filter_filter_r.
Qed.

Lemma X6_cleanup_idempotent_witness :
  let hostA := lit "hostA" in
  let kept := Grammar.in_progress hostA 100 700 in
  let current_file := Grammar.in_progress hostA 999 2000 in
  Cleaner.cleanup_old_files (λ _, true) [Grammar.in_progress hostA 100 699; kept] hostA
    current_file (inject_Z 1000) 300 = inr [kept]
  ∧ Cleaner.cleanup_old_files (λ _, true) [kept] hostA current_file (inject_Z 1000) 300
    = inr [kept].
Proof.
  intros hostA kept current_file.
  assert (Cleaner.cleanup_old_files (λ _, true) [Grammar.in_progress hostA 100 699; kept]
            hostA current_file (inject_Z 1000) 300 = inr [kept]) as H by (by vm_compute).
  split; [exact H|].
  exact (X6_cleanup_idempotent _ _ _ _ _ _ _ H).
Defined.


(** ** The merger on any target and any sources *)

Module AppendFacts.
Import Merger Notions.

Lemma extends_refl t : extends t t.
Proof. by repeat split. Qed.

Lemma extends_trans t1 t2 t3 : extends t1 t2 → extends t2 t3 → extends t1 t3.
Proof. intros (?&?&?) (?&?&?). repeat split; by etrans. Qed.

Lemma grows_ret {A} (a : A) : grows (mret a).
Proof. intros st. apply extends_refl. Qed.

Lemma grows_raise {A} e : grows (raise e : M A).
Proof. intros st. apply extends_refl. Qed.

Lemma grows_bind {A B} (m : M A) (f : A → M B) :
  grows m → (∀ a, grows (f a)) → grows (m ≫= f).
Proof.
  intros Hm Hf st. unfold mbind, M_bind. specialize (Hm st).
  destruct (m st) as [[e|a] st']; simpl in *; [done|].
  eapply extends_trans; [exact Hm|apply Hf].
Qed.

Lemma grows_table {A} (t : option (list A)) : grows (table t).
Proof. destruct t; [apply grows_ret|apply grows_raise]. Qed.

Lemma grows_for_each {A} (body : A → M unit) l :
  (∀ x, grows (body x)) → grows (for_each body l).
Proof.
  intros Hbody. induction l as [|x l IH]; simpl; [apply grows_ret|].
  apply grows_bind; [done|]. by intros _.
Qed.

Lemma grows_insert_session r : grows (insert_session r).
Proof.
  intros st. unfold insert_session. case_bool_decide; simpl; [apply extends_refl|].
  repeat split; simpl; [by apply prefix_app_r|done..].
Qed.

Lemma grows_insert_history r : grows (insert_history r).
Proof.
  intros st. unfold insert_history. case_bool_decide; simpl; [apply extends_refl|].
  repeat split; simpl; [done|by apply prefix_app_r|done].
Qed.

Lemma grows_insert_output r : grows (insert_output r).
Proof.
  intros st. unfold insert_output. case_bool_decide; simpl; [apply extends_refl|].
  repeat split; simpl; [done..|by apply prefix_app_r].
Qed.

Lemma grows_merge_session f db has row : grows (merge_session f db has row).
Proof.
  unfold merge_session.
  apply grows_bind; [apply grows_table|]. intros h.
  apply grows_bind.
  { destruct has; [|apply grows_ret].
    apply grows_bind; [apply grows_table|]. intros o. apply grows_ret. }
  intros outputs. apply grows_bind; [intros st; apply extends_refl|]. intros st0.
  case_bool_decide; [apply grows_ret|].
  apply grows_bind; [intros st; apply extends_refl|]. intros _.
  apply grows_bind; [apply grows_insert_session|]. intros _.
  apply grows_bind; [apply grows_for_each; intros c; apply grows_insert_history|]. intros _.
  apply grows_bind; [apply grows_for_each; intros o; apply grows_insert_output|]. intros _.
  intros st. apply extends_refl.
Qed.

Lemma grows_read_source f c : grows (read_source f c).
Proof.
  destruct c as [|db]; simpl; [apply grows_raise|].
  apply grows_bind; [apply grows_table|]. intros s.
  apply grows_for_each. intros row. apply grows_merge_session.
Qed.

Lemma target_print verbose m st : target (print verbose m st) = target st.
Proof. unfold print. by destruct verbose. Qed.

Lemma extends_process_source disk verbose st f :
  extends (target st) (target (process_source disk verbose st f)).
Proof.
  unfold process_source. pose proof (grows_read_source f (connect disk f) st) as H.
  destruct (read_source f (connect disk f) st) as [[e|[]] st']; simpl in H; [|done].
  by rewrite target_print.
Qed.

Lemma extends_loop disk verbose files st :
  extends (target st) (target (foldl (process_source disk verbose) st files)).
Proof.
  revert st. induction files as [|f files IH]; intros st; simpl; [apply extends_refl|].
  eapply extends_trans; [apply extends_process_source|apply IH].
Qed.

End AppendFacts.

(** X8.  [merge_histories] only appends: whatever the target holds
    before the run and whatever the sources are, every table of the
    target begins, after the run, with the rows it had, unchanged and
    in their order. *)
Theorem X8_merge_only_appends (disk : str → option Merger.file) (verbose : bool)
    (source_files : list str) (target_file : Merger.target_db) :
  Notions.extends target_file
    (Merger.target (Merger.merge_histories disk verbose source_files target_file)).
Proof.
  unfold Merger.merge_histories. rewrite AppendFacts.target_print.
  apply (AppendFacts.extends_loop disk verbose _ (Merger.initial target_file)).
Qed.

(** ** Sources without a table of outputs *)

Module OutputFacts.
Import Merger Notions.

Lemma for_each_ext {A} (f g : A → M unit) l st :
  (∀ x st, f x st = g x st) → for_each f l st = for_each g l st.
Proof.
  intros Hfg. revert st. induction l as [|x l IH]; intros st; simpl; [done|].
  unfold mbind, M_bind. rewrite Hfg. destruct (g x st) as [[e|[]] st']; [done|]. apply IH.
Qed.

Lemma merge_session_with_output_table f s h o row st :
  merge_session f (Database s h (Some (default [] o))) true row st
  = merge_session f (Database s h o) (bool_decide (is_Some o)) row st.
Proof. destruct o as [o|]; [done|]. unfold merge_session. simpl. by destruct h. Qed.

Lemma read_source_with_output_table f c st :
  read_source f (with_output_table c) st = read_source f c st.
Proof.
  destruct c as [|[s h o]]; [done|]. simpl.
  destruct s as [s|]; [|done]. simpl. unfold mbind, M_bind. simpl.
  apply for_each_ext. intros row st'. apply merge_session_with_output_table.
Qed.

Lemma process_source_with_output_tables disk verbose st f :
  process_source (with_output_tables disk) verbose st f = process_source disk verbose st f.
Proof.
  unfold process_source, connect, with_output_tables.
  destruct (disk f) as [file|]; simpl; [|done].
  by rewrite read_source_with_output_table.
Qed.

Lemma source_timestamp_with_output_tables disk f :
  source_timestamp (with_output_tables disk) f = source_timestamp disk f.
Proof.
  unfold source_timestamp, with_output_tables.
  destruct (Grammar.file_timestamp f); [done|]. by destruct (disk f).
Qed.

Lemma foldl_ext {A B} (f g : A → B → A) l a :
  (∀ a x, f a x = g a x) → foldl f a l = foldl g a l.
Proof.
  intros Hfg. revert a. induction l as [|x l IH]; intros a; simpl; [done|].
  by rewrite Hfg, IH.
Qed.

Lemma omap_ext' {A B} (f g : A → option B) (l : list A) :
  (∀ x, f x = g x) → omap f l = omap g l.
Proof. intros Hfg. induction l as [|x l IH]; csimpl; [done|]. by rewrite Hfg, IH. Qed.

End OutputFacts.

(** X9.  A source that has no [output_history] table is merged exactly
    like the same source with an empty one: the target, the counter and
    the console of the run are the same, for every target and every
    list of sources. *)
Theorem X9_missing_output_table_is_empty (disk : str → option Merger.file)
    (verbose : bool) (source_files : list str) (target_file : Merger.target_db) :
  Merger.merge_histories (Notions.with_output_tables disk) verbose source_files target_file
  = Merger.merge_histories disk verbose source_files target_file.
Proof.
  unfold Merger.merge_histories, Merger.files_with_times.
  rewrite (OutputFacts.omap_ext' _ (λ f, t ← Merger.source_timestamp disk f; Some (t, f)))
    by (intros f; by rewrite OutputFacts.source_timestamp_with_output_tables).
  rewrite (OutputFacts.foldl_ext _ (Merger.process_source disk verbose))
    by (intros st f; apply OutputFacts.process_source_with_output_tables).
  done.
Qed.

(** ** The order and the presence of the sources *)

Module SourceFacts.
Import Merger.

Lemma files_with_times_perm disk l l' :
  l ≡ₚ l' → NoDup (omap (source_timestamp disk) l) →
  files_with_times disk l = files_with_times disk l'.
Proof.
  intros Hperm Hnd. unfold files_with_times.
  set (timed := λ f, t ← source_timestamp disk f; Some (t, f)).
  assert ((omap timed l).*1 = omap (source_timestamp disk) l) as Hfst.
  { clear. induction l as [|f l IH]; [done|]. csimpl. unfold timed at 1.
    destruct (source_timestamp disk f); csimpl; by rewrite IH. }
  apply (StronglySorted_unique_strong (λ a b : Z * str, a.1 ≤ b.1)).
  - intros x y Hx Hy Hxy Hyx.
    apply SortFacts.elem_of_stable_sort in Hx, Hy. rewrite <- Hperm in Hy.
    assert (x.1 = y.1) as Heq by lia. rewrite <- Hfst in Hnd.
    apply list_elem_of_lookup in Hx as [i Hi], Hy as [j Hj].
    assert (i = j); [|congruence].
    apply (NoDup_lookup _ i j x.1 Hnd); rewrite list_lookup_fmap.
    + by rewrite Hi.
    + rewrite Hj. simpl. by rewrite Heq.
  - apply (SortFacts.stable_sort_sorted (λ a : Z * str, a.1)).
  - apply (SortFacts.stable_sort_sorted (λ a : Z * str, a.1)).
  - rewrite !SortFacts.stable_sort_perm. by apply omap_Permutation.
Qed.

End SourceFacts.

(** X10.  The order in which the caller lists the sources does not
    matter when their timestamps are pairwise different: the sort by
    timestamp brings every arrangement of the list into the same
    processing order, and the run ends in the same state. *)
Theorem X10_merge_ignores_listing_order (disk : str → option Merger.file)
    (verbose : bool) (source_files source_files' : list str)
    (target_file : Merger.target_db) :
  source_files ≡ₚ source_files' →
  NoDup (omap (Merger.source_timestamp disk) source_files) →
  Merger.merge_histories disk verbose source_files target_file
  = Merger.merge_histories disk verbose source_files' target_file.
Proof.
  intros Hperm Hnd. unfold Merger.merge_histories.
  by rewrite (SourceFacts.files_with_times_perm disk _ _ Hperm Hnd).
Qed.

Lemma X10_merge_ignores_listing_order_witness :
  (Example.source_files ≡ₚ reverse Example.source_files
   ∧ NoDup (omap (Merger.source_timestamp Example.disk) Example.source_files))
  ∧ Merger.merge_histories Example.disk true Example.source_files Merger.fresh
    = Merger.merge_histories Example.disk true (reverse Example.source_files) Merger.fresh.
Proof.
  assert (NoDup (omap (Merger.source_timestamp Example.disk) Example.source_files)) as Hnd
    by (apply (bool_decide_unpack _); by vm_compute).
  assert (Example.source_files ≡ₚ reverse Example.source_files) as Hperm
    by (symmetry; apply reverse_Permutation).
  split; [by split|].
  exact (X10_merge_ignores_listing_order Example.disk true _ _ Merger.fresh Hperm Hnd).
Defined.

(** X12.  A source that is not on disk and whose name gives no
    timestamp is dropped before the run: [stat] raises [OSError], the
    file gets no place in the processing order, and the run is the one
    without it, with no warning and no count for it. *)
Theorem X12_absent_unnamed_source_is_dropped (disk : str → option Merger.file)
    (verbose : bool) (before after : list str) (source_file : str)
    (target_file : Merger.target_db) :
  disk source_file = None →
  Grammar.file_timestamp source_file = None →
  Merger.merge_histories disk verbose (before ++ source_file :: after) target_file
  = Merger.merge_histories disk verbose (before ++ after) target_file.
Proof.
  intros Hdisk Hname.
  assert (Merger.source_timestamp disk source_file = None) as Hts.
  { unfold Merger.source_timestamp. by rewrite Hname, Hdisk. }
  unfold Merger.merge_histories, Merger.files_with_times.
  rewrite !omap_app. csimpl. by rewrite Hts.
Qed.

Lemma X12_absent_unnamed_source_is_dropped_witness :
  let gone := lit "old.db" in
  (Example.disk gone = None ∧ Grammar.file_timestamp gone = None)
  ∧ Merger.merge_histories Example.disk true ([Example.file_b] ++ gone :: [Example.file_a])
      Merger.fresh
    = Merger.merge_histories Example.disk true ([Example.file_b] ++ [Example.file_a])
        Merger.fresh.
Proof.
  intros gone.
  assert (Example.disk gone = None) as Hdisk by (by vm_compute).
  assert (Grammar.file_timestamp gone = None) as Hname by (by vm_compute).
  split; [by split|].
  exact (X12_absent_unnamed_source_is_dropped Example.disk true [Example.file_b]
           [Example.file_a] gone Merger.fresh Hdisk Hname).
Defined.
(** ** Merging a merged store *)

Module RemergeFacts.
Import Merger Notions.

Section Invariant.
Variable I : state → Prop.

Lemma keeps_ret {A} (a : A) : keeps I (mret a).
Proof. by intros st. Qed.

Lemma keeps_raise {A} e : keeps I (raise e : M A).
Proof. by intros st. Qed.

Lemma keeps_bind {A B} (m : M A) (f : A → M B) :
  keeps I m → (∀ a, keeps I (f a)) → keeps I (m ≫= f).
Proof.
  intros Hm Hf st Hst. unfold mbind, M_bind. specialize (Hm st Hst).
  destruct (m st) as [[e|a] st']; simpl in *; [done|]. by apply Hf.
Qed.

Lemma keeps_table {A} (t : option (list A)) : keeps I (table t).
Proof. destruct t; [apply keeps_ret|apply keeps_raise]. Qed.

Lemma keeps_for_each {A} (body : A → M unit) l :
  (∀ x, keeps I (body x)) → keeps I (for_each body l).
Proof.
  intros Hbody. induction l as [|x l IH]; simpl; [apply keeps_ret|].
  apply keeps_bind; [done|]. by intros _.
Qed.
End Invariant.

Lemma keyed_merge_session f db has row : keeps keyed (merge_session f db has row).
Proof.
  unfold merge_session.
  apply keeps_bind; [apply keeps_table|]. intros h.
  apply keeps_bind.
  { destruct has; [|apply keeps_ret].
    apply keeps_bind; [apply keeps_table|]. intros o. apply keeps_ret. }
  intros outputs. apply keeps_bind; [by intros st|]. intros st0.
  case_bool_decide; [apply keeps_ret|].
  apply keeps_bind; [by intros st|]. intros _.
  apply keeps_bind.
  { intros st Hst. unfold insert_session. by case_bool_decide. }
  intros _. apply keeps_bind.
  { apply keeps_for_each. intros c st [Hh Ho]. unfold insert_history.
    case_bool_decide as Hin; [done|]. split; [|done]. simpl.
    rewrite map_app. apply NoDup_app. split; [done|]. split; [|apply NoDup_singleton].
    intros k Hk [->|[]%elem_of_nil]%elem_of_cons. done. }
  intros _. apply keeps_bind.
  { apply keeps_for_each. intros o st [Hh Ho]. unfold insert_output.
    case_bool_decide as Hin; [done|]. split; [done|]. simpl.
    rewrite map_app. apply NoDup_app. split; [done|]. split; [|apply NoDup_singleton].
    intros k Hk [->|[]%elem_of_nil]%elem_of_cons. done. }
  intros _. by intros st.
Qed.

Lemma keyed_process_source disk verbose st f :
  keyed st → keyed (process_source disk verbose st f).
Proof.
  intros Hst. unfold process_source.
  assert (keeps keyed (read_source f (connect disk f))) as Hread.
  { destruct (connect disk f) as [|db]; simpl; [apply keeps_raise|].
    apply keeps_bind; [apply keeps_table|]. intros s.
    apply keeps_for_each. intros row. apply keyed_merge_session. }
  specialize (Hread st Hst).
  destruct (read_source f (connect disk f) st) as [[e|[]] st']; simpl in Hread; [|done].
  unfold print. by destruct verbose.
Qed.

Lemma keyed_merge_histories disk verbose source_files :
  keyed (merge_histories disk verbose source_files fresh).
Proof.
  unfold merge_histories.
  assert (∀ files st, keyed st → keyed (foldl (process_source disk verbose) st files)) as H.
  { induction files as [|f files IH]; intros st Hst; simpl; [done|].
    by apply IH, keyed_process_source. }
  unfold print. destruct verbose; apply H; split; constructor.
Qed.

Lemma first_copies_id S l :
  NoDup (map (λ x : str * item, item_signature x.2) l) →
  (∀ x, x ∈ l → item_signature x.2 ∉ S) →
  first_copies S l = l.
Proof.
  revert S. induction l as [|x l IH]; intros S Hnd HS; simpl; [done|].
  apply NoDup_cons in Hnd as [Hx Hnd].
  rewrite bool_decide_eq_false_2 by (apply HS; by left). f_equal.
  apply IH; [done|]. intros y Hy [Heq%elem_of_singleton|HyS]%elem_of_union.
  - apply Hx. rewrite <- Heq.
    by apply (list_elem_of_fmap_2 (λ x : str * item, item_signature x.2)).
  - apply (HS y); [by right|done].
Qed.

Lemma item_signature_reread g p : item_signature (reread g p).2 = item_signature p.2.2.
Proof.
  unfold reread, item_signature, session_signature, history_written, output_written.
  simpl. by rewrite !map_map.
Qed.

Lemma written_reread g n (K : list (str * item)) :
  map session_written (numbered n (map (reread g) (numbered n K)))
  = map session_written (numbered n K)
  ∧ flat_map history_written (numbered n (map (reread g) (numbered n K)))
    = flat_map history_written (numbered n K)
  ∧ flat_map output_written (numbered n (map (reread g) (numbered n K)))
    = flat_map output_written (numbered n K).
Proof.
  revert n. induction K as [|x K IH]; intros n; simpl; [done|].
  destruct (IH (n + 1)) as (-> & -> & ->).
  repeat split; f_equal;
    unfold session_written, history_written, output_written, reread; cbn [fst snd];
    unfold history_written, output_written; cbn [fst snd];
    by rewrite ?map_map.
Qed.

Section Store.
Variable disk : str → option file.
Variable source_files : list str.

Local Abbreviation K := (first_copies ∅ (sessions_read disk source_files)).

(** The queries of a later run on the merged store return the sessions
    that were written, each with its rows. *)
Lemma read_store_merged :
  read_store (Sync.store (Target (map session_written (numbered 1 K))
                                 (flat_map history_written (numbered 1 K))
                                 (flat_map output_written (numbered 1 K))))
  = Some (map (λ p, (reread [] p).2) (numbered 1 K)).
Proof.
  unfold read_store, Sync.store. cbn [sessions history output_history t_sessions
    t_history t_output_history mbind option_bind].
  assert (select_sessions (map session_written (numbered 1 K))
          = map session_written (numbered 1 K)) as ->.
  { apply (SortFacts.stable_sort_id session).
    apply (StronglySorted_fmap _ (λ p q : Z * (str * item), p.1 < q.1 ∧ True)).
    - intros p q [Hpq _]. simpl. lia.
    - apply (MergerFacts.numbered_sorted (λ _ _ : str * item, True)),
        MergerFacts.sorted_all. done. }
  assert (map (λ r, (r, select_history (flat_map history_written (numbered 1 K)) (session r),
                     select_output (flat_map output_written (numbered 1 K)) (session r)))
            (map session_written (numbered 1 K))
          = map (λ p, (reread [] p).2) (numbered 1 K)) as Hrows.
  { rewrite map_map. apply map_ext_in. intros [i x] Hin%list_elem_of_In. simpl.
    pose proof Hin as [_ Hx]%MergerFacts.elem_of_numbered.
    apply MergerFacts.kept_elem_of in Hx as [_ Hsorted].
    rewrite (MergerFacts.select_history_written 1 K i x Hin Hsorted).
    by rewrite (MergerFacts.select_output_written 1 K i x Hin Hsorted). }
  destruct (map session_written (numbered 1 K)) eqn:E.
  - by rewrite <- Hrows.
  - by rewrite <- Hrows.
Qed.
End Store.

End RemergeFacts.

(** X11.  A merged store merges to itself.  When the target of a run
    (fresh target, sources that keep the primary keys of the schema) is
    later the only source of another run into a fresh target, that run
    writes the same three tables again, row for row: every session is
    read back under the id it was given, none is taken for a duplicate,
    and each gets the same id. *)
Theorem X11_merged_store_merges_to_itself (disk disk' : str → option Merger.file)
    (verbose verbose' : bool) (source_files : list str) (merged : str) (mtime : Z) :
  Forall (λ f, Merger.keys_unique (Merger.connect disk f)) source_files →
  let T := Merger.target (Merger.merge_histories disk verbose source_files Merger.fresh) in
  disk' merged = Some (Merger.File mtime (Sync.store T)) →
  Merger.target (Merger.merge_histories disk' verbose' [merged] Merger.fresh) = T.
Proof.
  intros Hkeys T Hmerged.
  pose proof (RemergeFacts.keyed_merge_histories disk verbose source_files) as Hkeyed.
  destruct (MergerFacts.merge_result disk verbose source_files
              (MergerFacts.keys_unique_elem disk source_files Hkeys)) as (HT & _).
  fold T in HT, Hkeyed.
  assert (Merger.connect disk' merged = Sync.store T) as Hconnect.
  { unfold Merger.connect. by rewrite Hmerged. }
  destruct (MergerFacts.merge_result disk' verbose' [merged]) as (HT' & _).
  { intros f ->%list_elem_of_singleton. rewrite Hconnect. exact Hkeyed. }
  rewrite HT'. clear HT'.
  assert (Merger.sessions_read disk' [merged]
          = map (Notions.reread merged)
              (Merger.numbered 1 (Merger.first_copies ∅
                                    (Merger.sessions_read disk source_files)))) as ->.
  { unfold Merger.sessions_read at 1. unfold Merger.files_with_times. csimpl.
    assert (is_Some (Merger.source_timestamp disk' merged)) as [t ->].
    { unfold Merger.source_timestamp. rewrite Hmerged.
      destruct (Grammar.file_timestamp merged); by eexists. }
    csimpl. unfold Merger.items_of. simpl. rewrite Hconnect, HT.
    rewrite RemergeFacts.read_store_merged. simpl.
    rewrite app_nil_r, map_map. done. }
  rewrite RemergeFacts.first_copies_id.
  - destruct (RemergeFacts.written_reread merged 1
                (Merger.first_copies ∅ (Merger.sessions_read disk source_files)))
      as (-> & -> & ->).
    by rewrite HT.
  - rewrite map_map.
    rewrite (map_ext _ (λ p : Z * (str * Merger.item), Merger.item_signature p.2.2))
      by (intros p; apply RemergeFacts.item_signature_reread).
    rewrite <- (map_map snd (λ x : str * Merger.item, Merger.item_signature x.2)).
    change (map snd ?l) with (l.*2).
    rewrite MergerFacts.numbered_snd. apply MergerFacts.first_copies_NoDup.
  - intros x _. apply not_elem_of_empty.
Qed.

Lemma X11_merged_store_merges_to_itself_witness :
  let T := Merger.target (Merger.merge_histories Example.disk true Example.source_files
                            Merger.fresh) in
  let merged := lit "ipython_history_hostA_300_completed.db" in
  let disk' := λ name, if bool_decide (name = merged)
                       then Some (Merger.File 300 (Sync.store T)) else None in
  Forall (λ f, Merger.keys_unique (Merger.connect Example.disk f)) Example.source_files
  ∧ length (Merger.t_sessions T) = 2%nat
  ∧ Merger.target (Merger.merge_histories disk' false [merged] Merger.fresh) = T.
Proof.
  intros T merged disk'.
  assert (Forall (λ f, Merger.keys_unique (Merger.connect Example.disk f))
            Example.source_files) as Hkeys
    by (apply (bool_decide_unpack _); by vm_compute).
  split; [exact Hkeys|]. split; [by vm_compute|].
  apply (X11_merged_store_merges_to_itself Example.disk disk' true false
           Example.source_files merged 300 Hkeys).
  by vm_compute.
Defined.
(** ** The start of a session *)

Module SyncFacts.
Import Sync.

Lemma filter_none {A} (P : A → Prop) `{!∀ x, Decision (P x)} (l : list A) :
  (∀ x, x ∈ l → ¬ P x) → filter P l = [].
Proof.
  induction l as [|x l IH]; intros Hnone; [done|].
  rewrite filter_cons, decide_False by (apply Hnone; by left).
  apply IH. intros y Hy. apply Hnone. by right.
Qed.

Lemma read_put name f d name' :
  read (put name f d) name' = if decide (name' = name) then Some f else read d name'.
Proof.
  unfold read, put. rewrite filter_app, list_filter_filter.
  destruct (decide (name' = name)) as [->|Hne].
  - rewrite (filter_none _ d) by (by intros e _ [? ?]).
    rewrite filter_cons, decide_True by done. done.
  - rewrite filter_cons, decide_False by (simpl; congruence).
    rewrite filter_nil, app_nil_r. f_equal. f_equal.
    apply list_filter_iff. intros e. split; [by intros [? _]|].
    intros He. split; [done|]. congruence.
Qed.

Lemma names_read d name : name ∈ names d ↔ is_Some (read d name).
Proof.
  unfold names, read. rewrite list_elem_of_fmap. split.
  - intros (e & -> & He).
    assert (e ∈ filter (λ e' : str * Merger.file, e'.1 = e.1) d) as Hin
      by (by apply list_elem_of_filter).
    destruct (filter _ d); [by apply elem_of_nil in Hin|]. by eexists.
  - intros [f Hf]. destruct (filter _ d) as [|e l] eqn:E; [done|].
    assert (e ∈ filter (λ e' : str * Merger.file, e'.1 = name) d) as Hin
      by (rewrite E; by left).
    apply list_elem_of_filter in Hin as [? ?]. by exists e.
Qed.

(** Reading a file of the directory that a cleanup leaves. *)
Lemma read_kept (kept : list str) d name :
  read (filter (λ e, e.1 ∈ kept) d) name
  = if decide (name ∈ kept) then read d name else None.
Proof.
  unfold read. rewrite list_filter_filter. destruct (decide (name ∈ kept)) as [Hin|Hout].
  - f_equal. f_equal. apply list_filter_iff. intros e. split; [by intros [? _]|].
    intros <-. done.
  - rewrite filter_none; [done|]. intros e _ [<- ?]. done.
Qed.

Lemma read_copy src dst d name :
  read (copy_if_exists src dst d) name
  = if decide (name = dst) then (if read d src is Some f then Some f else read d dst)
    else read d name.
Proof.
  unfold copy_if_exists. destruct (read d src) as [f|] eqn:E.
  - apply read_put.
  - by destruct (decide (name = dst)) as [->|].
Qed.

Lemma completed_not_current hostname pid started :
  completed_file hostname started ≠ current_file hostname pid started.
Proof.
  unfold completed_file, current_file. intros Heq.
  pose proof (SelectionFacts.in_progress_not_completed hostname pid (timestamp started)) as Hm.
  by rewrite <- Heq, CatalogFacts.matches_completed_pattern in Hm.
Qed.

(** The default age is converted without rounding. *)
Lemma sub_int_300 (x : Q) :
  Binary64.sub_int x 300 = Some (Binary64.round (x - inject_Z 300)).
Proof.
  unfold Binary64.sub_int.
  replace (Binary64.of_int 300) with (Some (inject_Z 300)) by (by vm_compute). done.
Qed.

Section WithHost.
Variables (hostname : str) (pid : Z) (can_unlink : str → bool).
Variables (started cleaned : Q).

Local Abbreviation current := (current_file hostname pid started).
Local Abbreviation completed := (completed_file hostname started).
Local Abbreviation cutoff := (Binary64.round (cleaned - inject_Z 300)).

(** The directory after the cleanup that ends the function. *)
Lemma read_cleaned_up d :
  ∃ d', cleaned_up hostname pid can_unlink started cleaned d = inr d'
        ∧ d' `sublist_of` d
        ∧ ∀ name, read d' name
                  = if decide (PyPath.matches (Grammar.host_pattern hostname) name = true
                               ∧ Notions.removable can_unlink current cutoff name = true)
                    then None else read d name.
Proof.
  unfold cleaned_up, Cleaner.cleanup_old_files. rewrite sub_int_300.
  eexists. split; [done|]. split; [apply sublist_filter|]. intros name.
  rewrite read_kept, RetentionFacts.sweeps_filter.
  destruct (decide (name ∈ _)) as [Hin|Hout].
  - apply list_elem_of_filter in Hin as [Hkeep _]. by rewrite decide_False.
  - destruct (decide (_ ∧ _)) as [?|Hkeep]; [done|].
    destruct (read d name) as [f|] eqn:E; [|done].
    exfalso. apply Hout. apply list_elem_of_filter. split; [done|].
    apply names_read. by rewrite E.
Qed.
End WithHost.

End SyncFacts.

(** X13.  When no file is safe to merge and the file of the session is
    not there yet, [sync_and_get_hist_file] creates nothing: it returns
    the name of the in-progress file, which names no file, and the
    directory it leaves is the one it found with the old files of the
    host taken out. *)
Theorem X13_sync_fresh_start (hostname : str) (pid : Z) (can_unlink : str → bool)
    (started cleaned : Q) (written : Z) (verbose : bool) (d : Sync.directory) :
  let current_file := Sync.current_file hostname pid started in
  Catalog.get_safe_files_for_merge hostname (Sync.names d) current_file = inr [] →
  Sync.read d current_file = None →
  ∃ d', Sync.sync_and_get_hist_file hostname pid can_unlink started cleaned written
          verbose d = inr (current_file, d')
        ∧ current_file = Grammar.in_progress hostname pid (Sync.int_of_float started)
        ∧ d' `sublist_of` d
        ∧ Sync.read d' current_file = None.
Proof.
  intros current_file Hsafe Hnew. unfold Sync.sync_and_get_hist_file.
  fold current_file. rewrite Hsafe.
  replace (Sync.copy_if_exists current_file (Sync.completed_file hostname started) d)
    with d by (unfold Sync.copy_if_exists; by rewrite Hnew).
  destruct (SyncFacts.read_cleaned_up hostname pid can_unlink started cleaned d)
    as (d' & -> & Hsub & Hread).
  exists d'. split; [done|]. split; [done|]. split; [done|].
  rewrite Hread. fold current_file. rewrite Hnew. by destruct (decide _).
Qed.

Lemma X13_sync_fresh_start_witness :
  let hostA := lit "hostA" in
  let d := [(lit "ipython_history_hostA_100_1000.db",
             Merger.File 1000 (Merger.Sqlite Example.store_a))] in
  let current_file := Sync.current_file hostA 999 (20005 # 10) in
  (Catalog.get_safe_files_for_merge hostA (Sync.names d) current_file = inr []
   ∧ Sync.read d current_file = None)
  ∧ current_file = lit "ipython_history_hostA_999_2000.db"
  ∧ ∃ d', Sync.sync_and_get_hist_file hostA 999 (λ _, true) (20005 # 10) (20007 # 10)
            2000 false d = inr (current_file, d')
          ∧ Sync.read d' current_file = None.
Proof.
  intros hostA d current_file.
  assert (Catalog.get_safe_files_for_merge hostA (Sync.names d) current_file = inr [])
    as Hsafe by (by vm_compute).
  assert (Sync.read d current_file = None) as Hnew by (by vm_compute).
  split; [by split|]. split; [by vm_compute|].
  destruct (X13_sync_fresh_start hostA 999 (λ _, true) (20005 # 10) (20007 # 10) 2000
              false d Hsafe Hnew) as (d' & Hd' & _ & _ & Hread).
  exists d'. split; [exact Hd'|exact Hread].
Defined.




(** X16.  The function registered with [atexit] copies the history of
    the session onto the completed file; and whatever host starts next,
    and whatever its own file is, [get_safe_files_for_merge] selects
    that completed file whenever it returns. *)
Theorem X16_exit_copy_is_selected_next (hostname : str) (pid : Z) (started : Q)
    (d : Sync.directory) (history : Merger.file) :
  let current_file := Sync.current_file hostname pid started in
  let completed_file := Sync.completed_file hostname started in
  Sync.read d current_file = Some history →
  let d' := Sync.cleanup_on_exit hostname pid started d in
  Sync.read d' completed_file = Some history
  ∧ Sync.read d' current_file = Some history
  ∧ ∀ next_hostname next_file l,
      Catalog.get_safe_files_for_merge next_hostname (Sync.names d') next_file = inr l →
      completed_file ∈ l.
Proof.
  intros current_file completed_file Hcur d'.
  assert (Sync.read d' completed_file = Some history) as Hcomp.
  { unfold d', Sync.cleanup_on_exit. rewrite SyncFacts.read_copy.
    fold current_file completed_file. by rewrite decide_True, Hcur. }
  split; [exact Hcomp|]. split.
  - unfold d', Sync.cleanup_on_exit. rewrite SyncFacts.read_copy.
    fold current_file completed_file.
    rewrite decide_False; [done|].
    intros Heq. by apply (SyncFacts.completed_not_current hostname pid started).
  - intros next_hostname next_file l Hl.
    apply (CatalogFacts.safety_rules _ _ _ _ Hl).
    apply SyncFacts.names_read. change (is_Some (Sync.read d' completed_file)).
    by rewrite Hcomp.
Qed.

Lemma X16_exit_copy_is_selected_next_witness :
  let hostA := lit "hostA" in
  let history := Merger.File 2500 (Merger.Sqlite Example.store_a) in
  let d := [(lit "ipython_history_hostA_999_2000.db", history)] in
  Sync.read d (Sync.current_file hostA 999 (20005 # 10)) = Some history
  ∧ Sync.read (Sync.cleanup_on_exit hostA 999 (20005 # 10) d)
      (lit "ipython_history_hostA_2000_completed.db") = Some history.
Proof.
  intros hostA history d.
  assert (Sync.read d (Sync.current_file hostA 999 (20005 # 10)) = Some history) as Hcur
    by (by vm_compute).
  split; [exact Hcur|].
  destruct (X16_exit_copy_is_selected_next hostA 999 (20005 # 10) d history Hcur)
    as (Hcomp & _).
  exact Hcomp.
Defined.
